(** * utpools: a unix-socket front end relaying clients to pooled backend connections

    A shallow embedding of [utpools.go].  The program is concurrent: every
    goroutine is a small machine with a program counter, goroutines
    synchronise over unbuffered channels (a send and the matching receive are
    one joint step), and a label names the goroutine that moves together with
    what the environment answered (the result of a [Read], [Write] or
    [Accept]).  [relay_step] is one [Pipe] invocation with its two pumps;
    [step] is the whole process: [main], the acceptor, the sessions and the
    goroutine that waits for the drain. *)

From Stdlib Require Import ZArith Bool Lia.
From Stdlib.Init Require Import Byte.
From stdpp Require Import base option list.

(** ** Go runtime values *)

(** [error] values as the program inspects them: the only test the source
    makes is [nerr, ok := err.(net.Error); ok && nerr.Timeout()]. *)
Inductive go_error :=
| NetError (timeout : bool)   (* implements net.Error; Timeout() gives the flag *)
| OtherError.                 (* any other error, io.EOF for one *)

Definition is_net_timeout (e : go_error) : bool :=
  match e with
  | NetError t => t
  | OtherError => false
  end.

(** [time.Duration] is an int64 count of nanoseconds; instants are
    nanoseconds on the same axis. *)
Definition wrap64 (x : Z) : Z := ((x + 2 ^ 63) mod 2 ^ 64 - 2 ^ 63)%Z.
Definition Second : Z := 1000000000%Z.
Definition duration_mul (a b : Z) : Z := wrap64 (a * b).

(** [time.Second * 10], used by the publish [select] and by the deadline
    that [Pipe] sets on the backend connection. *)
Definition ten_seconds : Z := duration_mul Second 10.

(** Byte slices.  A slice is a pointer to a backing array and a length; the
    nil slice has no array.  The heap is the list of arrays ever allocated,
    an array's address being its index. *)
Abbreviation loc := nat (only parsing).
Abbreviation heap := (list (list byte)) (only parsing).

Record slice := mkSlice { s_ptr : option loc; s_len : nat }.

Definition nil_slice : slice := mkSlice None 0.

Definition is_nil (s : slice) : bool :=
  match s_ptr s with
  | None => true
  | Some _ => false
  end.

(** [make([]byte, n)]: a new zeroed array, never nil. *)
Definition make (n : nat) (h : heap) : slice * heap :=
  (mkSlice (Some (length h)) n, h ++ [repeat x00 n]).

(** [s[:n]], for [n] within the length. *)
Definition reslice (s : slice) (n : nat) : slice := mkSlice (s_ptr s) n.

Definition slice_bytes (h : heap) (s : slice) : list byte :=
  match s_ptr s with
  | None => []
  | Some l => take (s_len s) (default [] (h !! l))
  end.

(** Overwrite the front of the array at [l] with [bs]. *)
Definition store_at (l : loc) (bs : list byte) (h : heap) : heap :=
  match h !! l with
  | Some arr => <[l := bs ++ drop (length bs) arr]> h
  | None => h
  end.

(** [copy(dst, src)]: copies [min(len(dst), len(src))] bytes. *)
Definition copy (dst src : slice) (h : heap) : heap :=
  match s_ptr dst with
  | Some l => store_at l (take (Nat.min (s_len dst) (s_len src)) (slice_bytes h src)) h
  | None => h
  end.

(** ** Connections

    A [net.Conn] as the relay sees it.  What a [Read] returns is the
    environment's choice and arrives in the label; what the program does to a
    connection is recorded here. *)
Record conn := mkConn {
  conn_id : nat;
  conn_writes : list (list byte);  (* the payload of every Write call, oldest first *)
  conn_sent : list byte;           (* the bytes the transport accepted *)
  conn_deadline : option Z;        (* last SetDeadline *)
  conn_closed : bool
}.

(** [c.Write(p)] returning [(n, err)]: the transport took the first [n]
    bytes. *)
Definition conn_write (p : list byte) (n : nat) (c : conn) : conn :=
  mkConn (conn_id c) (conn_writes c ++ [p]) (conn_sent c ++ take n p)
         (conn_deadline c) (conn_closed c).

Definition conn_set_deadline (t : Z) (c : conn) : conn :=
  mkConn (conn_id c) (conn_writes c) (conn_sent c) (Some t) (conn_closed c).

Definition conn_close (c : conn) : conn :=
  mkConn (conn_id c) (conn_writes c) (conn_sent c) (conn_deadline c) true.

(** [conn.Read(b)] returning [(n, err)] with [data] the [n] bytes received:
    they land at the front of [b]'s array. *)
Definition conn_read_into (b : slice) (data : list byte) (h : heap) : heap :=
  match s_ptr b with
  | Some l => store_at l data h
  | None => h
  end.

(** ** The pool interface

    [pipeserver.Pool] is consumed through four methods; its implementation is
    a parameter of the development.  [pool_new] is
    [pipeserver.NewConnectionPool]. *)
Record PoolConfig := mkPoolConfig {
  InitialCap : Z;
  MaxCap : Z;
  IdleTimeout : Z
}.

Class Pool (PS : Type) := {
  pool_new : PoolConfig -> option PS;
  pool_get : PS -> option conn * PS;     (* Get() (net.Conn, error) *)
  pool_put : conn -> PS -> PS;           (* Put(conn) *)
  pool_size : PS -> Z;                   (* Size() *)
  pool_release : PS -> PS                (* Release() *)
}.

(** ** The read pump: the goroutine of [chanFromConn] *)

Inductive pump_pc :=
| PRead                              (* in conn.Read(b) *)
| PSend (res : slice) (since : Z)    (* in select { case c <- res: case <-time.After(10s): } *)
| PSendNil                           (* in c <- nil *)
| PClose                             (* left the loop, before close(c) *)
| PPut                               (* channel closed, before pool.Put(conn) *)
| PExit.                             (* goroutine finished *)

Record pump := mkPump {
  p_pool : bool;      (* pool != nil *)
  p_buf : slice;      (* b *)
  p_pc : pump_pc
}.

Definition pump_at (pc : pump_pc) (p : pump) : pump := mkPump (p_pool p) (p_buf p) pc.

(** [chanFromConn(pool, conn)] up to the first [Read]: the goroutine is
    started and allocates its buffer. *)
Definition chanFromConn (has_pool : bool) (h : heap) : pump * heap :=
  let '(b, h1) := make 1024 h in
  (mkPump has_pool b PRead, h1).

(** One pass through the loop body, from the return of [conn.Read(b)] to the
    next blocking point. *)
Definition pump_after_read (now : Z) (data : list byte) (err : option go_error)
    (p : pump) (h : heap) : pump * heap :=
  let n := length data in
  let h1 := conn_read_into (p_buf p) data h in
  match err with
  | Some e =>
      if negb (is_net_timeout e) then (pump_at PSendNil p, h1)
      else (pump_at PClose p, h1)
  | None =>
      if 0 <? n then
        let '(res, h2) := make n h1 in
        let h3 := copy res (reslice (p_buf p) n) h2 in
        (pump_at (PSend res now) p, h3)
      else (pump_at PRead p, h1)
  end.

(** The timer arm of the publish [select]: its [break] leaves the [select]
    only, so the loop goes on with the next [Read]. *)
Definition pump_after_timeout (p : pump) : pump := pump_at PRead p.

(** The send arm: nothing follows it in the loop body. *)
Definition pump_after_send (p : pump) : pump := pump_at PRead p.

(** After [c <- nil] comes [break]. *)
Definition pump_after_send_nil (p : pump) : pump := pump_at PClose p.

(** After [close(c)]: [if pool != nil { pool.Put(conn) ... }]. *)
Definition pump_after_close (p : pump) : pump :=
  pump_at (if p_pool p then PPut else PExit) p.

(** ** The dispatch loop of [Pipe] *)

Inductive side := Src | Dst.

Definition other (s : side) : side :=
  match s with
  | Src => Dst
  | Dst => Src
  end.

#[export] Instance side_eq_dec : EqDecision side.
Proof. solve_decision. Defined.

Definition side_eqb (a b : side) : bool :=
  match a, b with
  | Src, Src | Dst, Dst => true
  | _, _ => false
  end.

Inductive disp_pc :=
| DSelect                               (* in select over sc and dc *)
| DWrite (from : side) (chunk : slice)  (* in dst.Write(sd) or src.Write(dd) *)
| DReturn.                              (* Pipe has returned *)

Record relay := mkRelay {
  r_src : conn;
  r_dst : conn;
  r_heap : heap;
  r_sp : pump;            (* the goroutine behind sc := chanFromConn(nil, src) *)
  r_dp : pump;            (* the goroutine behind dc := chanFromConn(pool, dst) *)
  r_sc_closed : bool;
  r_dc_closed : bool;
  r_disp : disp_pc
}.

Definition r_pump (s : side) (r : relay) : pump :=
  match s with Src => r_sp r | Dst => r_dp r end.

Definition r_conn (s : side) (r : relay) : conn :=
  match s with Src => r_src r | Dst => r_dst r end.

Definition r_closed (s : side) (r : relay) : bool :=
  match s with Src => r_sc_closed r | Dst => r_dc_closed r end.

Definition set_pump (s : side) (p : pump) (r : relay) : relay :=
  match s with
  | Src => mkRelay (r_src r) (r_dst r) (r_heap r) p (r_dp r) (r_sc_closed r) (r_dc_closed r) (r_disp r)
  | Dst => mkRelay (r_src r) (r_dst r) (r_heap r) (r_sp r) p (r_sc_closed r) (r_dc_closed r) (r_disp r)
  end.

Definition set_conn (s : side) (c : conn) (r : relay) : relay :=
  match s with
  | Src => mkRelay c (r_dst r) (r_heap r) (r_sp r) (r_dp r) (r_sc_closed r) (r_dc_closed r) (r_disp r)
  | Dst => mkRelay (r_src r) c (r_heap r) (r_sp r) (r_dp r) (r_sc_closed r) (r_dc_closed r) (r_disp r)
  end.

Definition set_heap (h : heap) (r : relay) : relay :=
  mkRelay (r_src r) (r_dst r) h (r_sp r) (r_dp r) (r_sc_closed r) (r_dc_closed r) (r_disp r).

Definition set_chan_closed (s : side) (r : relay) : relay :=
  match s with
  | Src => mkRelay (r_src r) (r_dst r) (r_heap r) (r_sp r) (r_dp r) true (r_dc_closed r) (r_disp r)
  | Dst => mkRelay (r_src r) (r_dst r) (r_heap r) (r_sp r) (r_dp r) (r_sc_closed r) true (r_disp r)
  end.

Definition set_disp (d : disp_pc) (r : relay) : relay :=
  mkRelay (r_src r) (r_dst r) (r_heap r) (r_sp r) (r_dp r) (r_sc_closed r) (r_dc_closed r) d.

(** [Pipe(pool, src, dst)] up to the first [select]. *)
Definition Pipe (src dst : conn) : relay :=
  let '(sp, h1) := chanFromConn false [] in
  let '(dp, h2) := chanFromConn true h1 in
  mkRelay src dst h2 sp dp false false DSelect.

(** One arm of the [select] in [Pipe], taken with the value [v] received on
    [sc] ([from = Src]) or on [dc] ([from = Dst]). *)
Definition dispatch (now : Z) (from : side) (v : slice) (r : relay) : relay :=
  if is_nil v then
    match from with
    | Src => set_disp DReturn (set_conn Dst (conn_set_deadline (now + ten_seconds) (r_dst r)) r)
    | Dst => set_disp DReturn r
    end
  else set_disp (DWrite from v) r.

(** The pending [Write] returns [(n, err)]; the source discards both. *)
Definition dispatch_after_write (from : side) (chunk : slice) (n : nat)
    (err : option go_error) (r : relay) : relay :=
  let target := other from in
  set_disp DSelect (set_conn target (conn_write (slice_bytes (r_heap r) chunk) n (r_conn target r)) r).

(** ** One relay as a transition system *)

Inductive relay_label :=
| LRead (s : side) (data : list byte) (err : option go_error)  (* conn.Read returns *)
| LSend (s : side)         (* c <- res meets the select of Pipe *)
| LTimeout (s : side)      (* <-time.After(10s) wins the publish select *)
| LSendNil (s : side)      (* c <- nil meets the select of Pipe *)
| LClose (s : side)        (* close(c) *)
| LPut (s : side)          (* pool.Put(conn) *)
| LRecvClosed (s : side)   (* the select of Pipe receives from the closed channel *)
| LWrite (n : nat) (err : option go_error).   (* the pending Write returns *)

Definition is_select (d : disp_pc) : bool :=
  match d with
  | DSelect => true
  | _ => false
  end.

(** The result a [Write] of [len] bytes may give, by the contract of
    [io.Writer]: [n <= len], and a short count comes with an error.  Likewise
    a [Read] into [b] returns at most [len(b)] bytes ([io.Reader]); a label
    that breaks either contract is not a step. *)
Definition write_result_ok (len n : nat) (err : option go_error) : bool :=
  (n <=? len) && (match err with None => n =? len | Some _ => true end).

Section RelayStep.
Context {PS : Type} `{Pool PS}.

Definition relay_step (now : Z) (l : relay_label) (st : PS * relay) : option (PS * relay) :=
  let '(ps, r) := st in
  match l with
  | LRead s data err =>
      let p := r_pump s r in
      match p_pc p with
      | PRead =>
          if length data <=? s_len (p_buf p) then
            let '(p', h') := pump_after_read now data err p (r_heap r) in
            Some (ps, set_pump s p' (set_heap h' r))
          else None
      | _ => None
      end
  | LSend s =>
      let p := r_pump s r in
      match p_pc p with
      | PSend res _ =>
          if is_select (r_disp r) then
            Some (ps, dispatch now s res (set_pump s (pump_after_send p) r))
          else None
      | _ => None
      end
  | LTimeout s =>
      let p := r_pump s r in
      match p_pc p with
      | PSend _ since =>
          if (since + ten_seconds <=? now)%Z then
            Some (ps, set_pump s (pump_after_timeout p) r)
          else None
      | _ => None
      end
  | LSendNil s =>
      let p := r_pump s r in
      match p_pc p with
      | PSendNil =>
          if is_select (r_disp r) then
            Some (ps, dispatch now s nil_slice (set_pump s (pump_after_send_nil p) r))
          else None
      | _ => None
      end
  | LClose s =>
      let p := r_pump s r in
      match p_pc p with
      | PClose => Some (ps, set_pump s (pump_after_close p) (set_chan_closed s r))
      | _ => None
      end
  | LPut s =>
      let p := r_pump s r in
      match p_pc p with
      | PPut => Some (pool_put (r_conn s r) ps, set_pump s (pump_at PExit p) r)
      | _ => None
      end
  | LRecvClosed s =>
      if r_closed s r && is_select (r_disp r) then Some (ps, dispatch now s nil_slice r)
      else None
  | LWrite n err =>
      match r_disp r with
      | DWrite from chunk =>
          if write_result_ok (length (slice_bytes (r_heap r) chunk)) n err then
            Some (ps, dispatch_after_write from chunk n err r)
          else None
      | _ => None
      end
  end.

(** A schedule: the instant of each step and its label. *)
Fixpoint relay_run (tr : list (Z * relay_label)) (st : PS * relay) : option (PS * relay) :=
  match tr with
  | [] => Some st
  | (now, l) :: tr' =>
      match relay_step now l st with
      | Some st' => relay_run tr' st'
      | None => None
      end
  end.

End RelayStep.

(** ** The process: [main], the acceptor, the sessions *)

(** The flags [main] reads ([-min], [-max], [-idle], [-timeout]; the last one
    is a [uint]). *)
Record options := mkOptions {
  optionMinNum : Z;
  optionMaxNum : Z;
  optionIdleTimeout : Z;
  optionShutdownTimeout : Z
}.

(** The timer of the shutdown [select]: [time.Second] times the [-timeout]
    flag converted to [time.Duration]. *)
Definition shutdown_duration (o : options) : Z :=
  duration_mul Second (wrap64 (optionShutdownTimeout o)).

(** The goroutine the acceptor starts for a connection:
    [connWaitGroup.Add(1); handleConn(pools, conn); connWaitGroup.Done()]. *)
Inductive session_pc :=
| SSpawned        (* started, before connWaitGroup.Add(1) *)
| SRegistered     (* after Add(1): in handleConn, before pool.Get() *)
| SGetFailed      (* Get failed: handleConn returns, the deferred Close is due *)
| SPiping         (* in Pipe *)
| SClosed         (* conn.Close() done, before connWaitGroup.Done() *)
| SFinished.

(** [s_conn] is the accepted connection; once [Pipe] runs, [r_src] of the
    relay is that same connection and [Close] reaches both. *)
Record session := mkSession {
  s_pc : session_pc;
  s_conn : conn;
  s_relay : option relay
}.

Inductive acceptor_pc := ARunning | AStopped.

Inductive main_pc :=
| MAwaitSignal            (* in for s := range sigs *)
| MSelect (expiry : Z)    (* in select { case <-tt.C: case <-wait: } *)
| MRemove                 (* before os.Remove of the socket path *)
| MExit.                  (* before os.Exit(0) *)

(** The goroutine [connWaitGroup.Wait(); wait <- struct{}{}]. *)
Inductive waiter_pc := WNone | WWaiting | WSending | WDone.

(** The closure [main] defers: [listener.Close(); pools.Release()]. *)
Inductive deferred := DeferCloseAndRelease.

Inductive signal := SIGTERM | SIGINT.

Section Process.
Context {PS : Type} `{Pool PS}.
Variable opts : options.

Record world := mkWorld {
  w_now : Z;
  w_pools : PS;
  w_listener_deadline : option Z;
  w_listener_closed : bool;
  w_sock_file : bool;              (* the socket path exists *)
  w_connWaitGroup : Z;                        (* the counter of connWaitGroup *)
  w_sessions : list session;
  w_acceptor : acceptor_pc;
  w_main : main_pc;
  w_waiter : waiter_pc;
  w_defers : list deferred;        (* of main, latest first *)
  w_exit : option Z                (* the exit code once the process is gone *)
}.

Definition set_now (t : Z) (w : world) : world :=
  mkWorld t (w_pools w) (w_listener_deadline w) (w_listener_closed w) (w_sock_file w)
          (w_connWaitGroup w) (w_sessions w) (w_acceptor w) (w_main w) (w_waiter w) (w_defers w) (w_exit w).
Definition set_pools (ps : PS) (w : world) : world :=
  mkWorld (w_now w) ps (w_listener_deadline w) (w_listener_closed w) (w_sock_file w)
          (w_connWaitGroup w) (w_sessions w) (w_acceptor w) (w_main w) (w_waiter w) (w_defers w) (w_exit w).
Definition set_listener_deadline (t : Z) (w : world) : world :=
  mkWorld (w_now w) (w_pools w) (Some t) (w_listener_closed w) (w_sock_file w)
          (w_connWaitGroup w) (w_sessions w) (w_acceptor w) (w_main w) (w_waiter w) (w_defers w) (w_exit w).
Definition close_listener (w : world) : world :=
  mkWorld (w_now w) (w_pools w) (w_listener_deadline w) true (w_sock_file w)
          (w_connWaitGroup w) (w_sessions w) (w_acceptor w) (w_main w) (w_waiter w) (w_defers w) (w_exit w).
Definition remove_sock_file (w : world) : world :=
  mkWorld (w_now w) (w_pools w) (w_listener_deadline w) (w_listener_closed w) false
          (w_connWaitGroup w) (w_sessions w) (w_acceptor w) (w_main w) (w_waiter w) (w_defers w) (w_exit w).
Definition set_connWaitGroup (n : Z) (w : world) : world :=
  mkWorld (w_now w) (w_pools w) (w_listener_deadline w) (w_listener_closed w) (w_sock_file w)
          n (w_sessions w) (w_acceptor w) (w_main w) (w_waiter w) (w_defers w) (w_exit w).
Definition set_sessions (ss : list session) (w : world) : world :=
  mkWorld (w_now w) (w_pools w) (w_listener_deadline w) (w_listener_closed w) (w_sock_file w)
          (w_connWaitGroup w) ss (w_acceptor w) (w_main w) (w_waiter w) (w_defers w) (w_exit w).
Definition set_acceptor (a : acceptor_pc) (w : world) : world :=
  mkWorld (w_now w) (w_pools w) (w_listener_deadline w) (w_listener_closed w) (w_sock_file w)
          (w_connWaitGroup w) (w_sessions w) a (w_main w) (w_waiter w) (w_defers w) (w_exit w).
Definition set_main (m : main_pc) (w : world) : world :=
  mkWorld (w_now w) (w_pools w) (w_listener_deadline w) (w_listener_closed w) (w_sock_file w)
          (w_connWaitGroup w) (w_sessions w) (w_acceptor w) m (w_waiter w) (w_defers w) (w_exit w).
Definition set_waiter (x : waiter_pc) (w : world) : world :=
  mkWorld (w_now w) (w_pools w) (w_listener_deadline w) (w_listener_closed w) (w_sock_file w)
          (w_connWaitGroup w) (w_sessions w) (w_acceptor w) (w_main w) x (w_defers w) (w_exit w).
Definition set_defers (ds : list deferred) (w : world) : world :=
  mkWorld (w_now w) (w_pools w) (w_listener_deadline w) (w_listener_closed w) (w_sock_file w)
          (w_connWaitGroup w) (w_sessions w) (w_acceptor w) (w_main w) (w_waiter w) ds (w_exit w).

(** A deferred call, as it would run if [main] returned. *)
Definition run_deferred (d : deferred) (w : world) : world :=
  match d with
  | DeferCloseAndRelease => set_pools (pool_release (w_pools w)) (close_listener w)
  end.

(** Returning from [main] runs the deferred calls, latest first. *)
Definition main_return (w : world) : world :=
  set_defers [] (fold_left (fun w d => run_deferred d w) (w_defers w) w).

(** [os.Exit(code)]: the process ends at once; deferred calls are not
    run. *)
Definition os_exit (code : Z) (w : world) : world :=
  mkWorld (w_now w) (w_pools w) (w_listener_deadline w) (w_listener_closed w) (w_sock_file w)
          (w_connWaitGroup w) (w_sessions w) (w_acceptor w) (w_main w) (w_waiter w) (w_defers w) (Some code).

(** [main] up to the start of the acceptor.  [listen_ok] is whether
    [net.ListenUnix] succeeded; both failures print and [os.Exit(1)]. *)
Inductive boot_result := BootExit (code : Z) | BootOk (w : world).

Definition boot (listen_ok : bool) (now : Z) : boot_result :=
  match pool_new (mkPoolConfig (optionMinNum opts) (optionMaxNum opts)
                               (optionIdleTimeout opts)) with
  | None => BootExit 1
  | Some ps =>
      if listen_ok then
        BootOk (mkWorld now ps None false true 0 [] ARunning MAwaitSignal WNone
                        [DeferCloseAndRelease] None)
      else BootExit 1
  end.

(** *** The acceptor: one pass through its loop, [Accept] having returned *)
Definition accept_once (res : conn + go_error) (w : world) : world :=
  match res with
  | inr e =>
      if is_net_timeout e then set_acceptor AStopped w   (* break *)
      else w                                             (* continue *)
  | inl c => set_sessions (w_sessions w ++ [mkSession SSpawned c None]) w
  end.

(** *** [handleConn], from [pool.Get()] to [Pipe] or to the early return *)
Definition handleConn_get (s : session) (ps : PS) : session * PS :=
  match pool_get ps with
  | (None, ps') => (mkSession SGetFailed (s_conn s) None, ps')
  | (Some target, ps') => (mkSession SPiping (s_conn s) (Some (Pipe (s_conn s) target)), ps')
  end.

(** Whether [handleConn] is at its return: the early one, or [Pipe] has
    come back. *)
Definition handleConn_returning (s : session) : bool :=
  match s_pc s, s_relay s with
  | SGetFailed, _ => true
  | SPiping, Some r => match r_disp r with DReturn => true | _ => false end
  | _, _ => false
  end.

(** The deferred [conn.Close()]. *)
Definition handleConn_close (s : session) : session :=
  mkSession SClosed (conn_close (s_conn s))
            (option_map (fun r => set_conn Src (conn_close (r_src r)) r) (s_relay s)).

(** *** Time: a publish timer or the shutdown timer fires when due *)
Definition timer_allows (now d t : Z) : bool := ((d =? 0) || (now + d <=? t))%Z.

Definition pump_allows (now d : Z) (p : pump) : bool :=
  match p_pc p with
  | PSend _ since => timer_allows now d (since + ten_seconds)
  | _ => true
  end.

Definition session_allows (now d : Z) (s : session) : bool :=
  match s_relay s with
  | Some r => pump_allows now d (r_sp r) && pump_allows now d (r_dp r)
  | None => true
  end.

Definition main_allows (now d : Z) (m : main_pc) : bool :=
  match m with
  | MSelect expiry => timer_allows now d expiry
  | _ => true
  end.

Definition can_tick (d : Z) (w : world) : bool :=
  (0 <=? d)%Z && forallb (session_allows (w_now w) d) (w_sessions w)
  && main_allows (w_now w) d (w_main w).

Inductive label :=
| LTick (d : Z)                           (* d nanoseconds pass *)
| LAccept (res : conn + go_error)         (* listener.Accept() returns *)
| LSessAdd (sid : nat)                    (* connWaitGroup.Add(1) *)
| LSessGet (sid : nat)                    (* pool.Get() in handleConn *)
| LSessRelay (sid : nat) (l : relay_label)
| LSessClose (sid : nat)                  (* handleConn returns: deferred conn.Close() *)
| LSessDone (sid : nat)                   (* connWaitGroup.Done() *)
| LSignal (s : signal)                    (* main receives s from sigs *)
| LWaiterWait                             (* connWaitGroup.Wait() returns *)
| LDrained                                (* select takes <-wait *)
| LTimerFired                             (* select takes <-tt.C *)
| LRemove                                 (* os.Remove, then break *)
| LExit.                                  (* os.Exit(0) *)

Definition update_session (sid : nat) (s : session) (w : world) : world :=
  set_sessions (<[sid := s]> (w_sessions w)) w.

Definition step_running (l : label) (w : world) : option world :=
  match l with
  | LTick d => if can_tick d w then Some (set_now (w_now w + d) w) else None
  | LAccept res =>
      match w_acceptor w with
      | ARunning => Some (accept_once res w)
      | AStopped => None
      end
  | LSessAdd sid =>
      match w_sessions w !! sid with
      | Some s =>
          match s_pc s with
          | SSpawned =>
              Some (update_session sid (mkSession SRegistered (s_conn s) (s_relay s))
                      (set_connWaitGroup (w_connWaitGroup w + 1) w))
          | _ => None
          end
      | None => None
      end
  | LSessGet sid =>
      match w_sessions w !! sid with
      | Some s =>
          match s_pc s with
          | SRegistered =>
              let '(s', ps') := handleConn_get s (w_pools w) in
              Some (update_session sid s' (set_pools ps' w))
          | _ => None
          end
      | None => None
      end
  | LSessRelay sid rl =>
      match w_sessions w !! sid with
      | Some s =>
          match s_relay s with
          | Some r =>
              match relay_step (w_now w) rl (w_pools w, r) with
              | Some (ps', r') =>
                  Some (update_session sid (mkSession (s_pc s) (s_conn s) (Some r'))
                          (set_pools ps' w))
              | None => None
              end
          | None => None
          end
      | None => None
      end
  | LSessClose sid =>
      match w_sessions w !! sid with
      | Some s =>
          if handleConn_returning s then Some (update_session sid (handleConn_close s) w)
          else None
      | None => None
      end
  | LSessDone sid =>
      match w_sessions w !! sid with
      | Some s =>
          match s_pc s with
          | SClosed =>
              Some (update_session sid (mkSession SFinished (s_conn s) (s_relay s))
                      (set_connWaitGroup (w_connWaitGroup w - 1) w))
          | _ => None
          end
      | None => None
      end
  | LSignal _ =>
      match w_main w with
      | MAwaitSignal =>
          Some (set_waiter WWaiting
                 (set_main (MSelect (w_now w + shutdown_duration opts))
                    (set_listener_deadline (w_now w) w)))
      | _ => None
      end
  | LWaiterWait =>
      match w_waiter w with
      | WWaiting => if (w_connWaitGroup w =? 0)%Z then Some (set_waiter WSending w) else None
      | _ => None
      end
  | LDrained =>
      match w_main w, w_waiter w with
      | MSelect _, WSending => Some (set_waiter WDone (set_main MRemove w))
      | _, _ => None
      end
  | LTimerFired =>
      match w_main w with
      | MSelect expiry => if (expiry <=? w_now w)%Z then Some (set_main MRemove w) else None
      | _ => None
      end
  | LRemove =>
      match w_main w with
      | MRemove => Some (set_main MExit (remove_sock_file w))
      | _ => None
      end
  | LExit =>
      match w_main w with
      | MExit => Some (os_exit 0 w)
      | _ => None
      end
  end.

(** Nothing moves once the process has exited. *)
Definition step (l : label) (w : world) : option world :=
  match w_exit w with
  | Some _ => None
  | None => step_running l w
  end.

Fixpoint run (tr : list label) (w : world) : option world :=
  match tr with
  | [] => Some w
  | l :: tr' =>
      match step l w with
      | Some w' => run tr' w'
      | None => None
      end
  end.
End Process.

(** ** A pool to run the model with *)

(** Modelled from the spec: the connection pool of package [pipeserver],
    which [utpools.go] imports and whose source is not part of the files at
    hand.  It follows the contract of the Pool Adapter: construction fills the
    pool with the configured minimum and fails when that cannot be done;
    [Get] hands out an idle connection, or dials a new one while the live
    count is below the maximum, and fails otherwise; [Put] takes a healthy
    connection back and destroys a closed one; [Size] is the live count;
    [Release] destroys every connection the pool holds. *)
Record spec_pool := mkSpecPool {
  sp_idle : list conn;     (* held by the pool, ready to hand out *)
  sp_live : nat;           (* live connections, idle or borrowed *)
  sp_max : nat;
  sp_next : nat            (* id of the next connection the factory dials *)
}.

Definition dial (id : nat) : conn := mkConn id [] [] None false.

Definition spec_pool_new (cfg : PoolConfig) : option spec_pool :=
  if ((0 <=? InitialCap cfg) && (InitialCap cfg <=? MaxCap cfg))%Z then
    let n := Z.to_nat (InitialCap cfg) in
    Some (mkSpecPool (dial <$> seq 0 n) n (Z.to_nat (MaxCap cfg)) n)
  else None.

Definition spec_pool_get (ps : spec_pool) : option conn * spec_pool :=
  match sp_idle ps with
  | c :: rest => (Some c, mkSpecPool rest (sp_live ps) (sp_max ps) (sp_next ps))
  | [] =>
      if sp_live ps <? sp_max ps then
        (Some (dial (sp_next ps)),
         mkSpecPool [] (S (sp_live ps)) (sp_max ps) (S (sp_next ps)))
      else (None, ps)
  end.

Definition spec_pool_put (c : conn) (ps : spec_pool) : spec_pool :=
  if conn_closed c then mkSpecPool (sp_idle ps) (pred (sp_live ps)) (sp_max ps) (sp_next ps)
  else mkSpecPool (sp_idle ps ++ [c]) (sp_live ps) (sp_max ps) (sp_next ps).

Definition spec_pool_release (ps : spec_pool) : spec_pool :=
  mkSpecPool [] (sp_live ps - length (sp_idle ps)) (sp_max ps) (sp_next ps).

#[export] Instance spec_pool_Pool : Pool spec_pool := {
  pool_new := spec_pool_new;
  pool_get := spec_pool_get;
  pool_put := spec_pool_put;
  pool_size := fun ps => Z.of_nat (sp_live ps);
  pool_release := spec_pool_release
}.

(** The flags at their defaults: [-min 5 -max 20 -idle 3600 -timeout 60]. *)
Definition default_options : options := mkOptions 5 20 3600 60.

(** Sample inputs: a client connection, a backend connection out of a pool of
    at most two, and two chunks of payload. *)
Definition sample_client : conn := dial 100.
Definition sample_backend : conn := dial 0.
Definition sample_pool : spec_pool := mkSpecPool [] 1 2 1.
Definition chunk_hi : list byte := [x68; x69].
Definition chunk_yo : list byte := [x79; x6f].

(** A clean shutdown with no session in flight: the signal arrives, the
    drain is seen at once, the socket file is removed and the process
    exits. *)
Definition shutdown_schedule : list label :=
  [LSignal SIGTERM; LWaiterWait; LDrained; LRemove; LExit].

(** The signal arrives between the start of a session's goroutine and its
    [connWaitGroup.Add(1)]. *)
Definition racing_schedule : list label :=
  [LAccept (inl sample_client); LSignal SIGTERM; LWaiterWait].

(** A relay that reads "hi" and "yo" from the client and has written "hi" to
    the backend. *)
Definition forwarding_schedule : list (Z * relay_label) :=
  [(0, LRead Src chunk_hi None); (1, LSend Src); (2, LRead Src chunk_yo None);
   (3, LWrite 2 None); (4, LSend Src)]%Z.

(** The client pump offers "hi"; then the dispatch loop takes it and the
    pump reads "yo" into the same buffer before "hi" is written. *)
Definition offering_schedule : list (Z * relay_label) :=
  [(0, LRead Src chunk_hi None)]%Z.

Definition overwriting_schedule : list (Z * relay_label) :=
  [(1, LSend Src); (2, LRead Src chunk_yo None)]%Z.

(** The backend closes its end: the backend pump reads end of file. *)
Definition backend_eof_schedule : list (Z * relay_label) :=
  [(0, LRead Dst [] (Some OtherError))]%Z.

(** A process whose one session is offering "hi", five nanoseconds later. *)
Definition publishing_schedule : list label :=
  [LAccept (inl sample_client); LSessAdd 0; LSessGet 0;
   LSessRelay 0 (LRead Src chunk_hi None); LTick 5].

(** A pool of exactly one connection, and two clients: the first session
    takes the connection, the second is about to ask for one. *)
Definition one_connection_options : options := mkOptions 1 1 3600 60.

Definition exhausting_schedule : list label :=
  [LAccept (inl sample_client); LAccept (inl (dial 101)); LSessAdd 0; LSessAdd 1;
   LSessGet 0].

(** ** What the statements observe *)

(** The chunk a label makes the pump of side [s] read: a [Read] without error
    that brought at least one byte. *)
Definition chunk_of (s : side) (l : relay_label) : list (list byte) :=
  match l with
  | LRead s' data None => if side_eqb s s' && (0 <? length data) then [data] else []
  | _ => []
  end.

(** The chunks the pump of side [s] read along a schedule, in order. *)
Definition chunks_read (s : side) (tr : list (Z * relay_label)) : list (list byte) :=
  concat ((fun x => chunk_of s x.2) <$> tr).

Definition is_timeout_of (s : side) (l : relay_label) : bool :=
  match l with
  | LTimeout s' => side_eqb s s'
  | _ => false
  end.

(** No publish of side [s] was abandoned along the schedule. *)
Definition never_timed_out (s : side) (tr : list (Z * relay_label)) : bool :=
  forallb (fun x => negb (is_timeout_of s x.2)) tr.

(** The chunks of side [s] on their way: received by the dispatch loop and
    not yet written, or offered by the pump and not yet received. *)
Definition held_by_dispatch (s : side) (r : relay) : list slice :=
  match r_disp r with
  | DWrite from c => if side_eqb s from then [c] else []
  | _ => []
  end.

Definition held_by_pump (s : side) (r : relay) : list slice :=
  match p_pc (r_pump s r) with
  | PSend res _ => [res]
  | _ => []
  end.

Definition in_flight (s : side) (r : relay) : list (list byte) :=
  slice_bytes (r_heap r) <$> (held_by_dispatch s r ++ held_by_pump s r).

(** A chunk that has been published: offered on a channel or already taken
    by the dispatch loop. *)
Definition published (c : slice) (r : relay) : Prop :=
  ∃ s, c ∈ held_by_dispatch s r ++ held_by_pump s r.

(** Label [l] makes the [select] of [Pipe] receive [v] from the channel of
    side [s]. *)
Definition receives (r : relay) (l : relay_label) (s : side) (v : slice) : Prop :=
  (l = LSend s ∧ ∃ t, p_pc (r_pump s r) = PSend v t)
  ∨ (l = LSendNil s ∧ p_pc (r_pump s r) = PSendNil ∧ v = nil_slice)
  ∨ (l = LRecvClosed s ∧ r_closed s r = true ∧ v = nil_slice).

(** A relay with the transport's byte counts left out: what remains does not
    depend on what the [Write] calls returned. *)
Definition conn_forget_sent (c : conn) : conn :=
  mkConn (conn_id c) (conn_writes c) [] (conn_deadline c) (conn_closed c).

Definition relay_forget_sent (r : relay) : relay :=
  set_conn Src (conn_forget_sent (r_src r)) (set_conn Dst (conn_forget_sent (r_dst r)) r).

(** Whether a session stands in the wait group: it has done [Add(1)] and not
    yet [Done()]. *)
Definition counted (s : session) : bool :=
  match s_pc s with
  | SRegistered | SGetFailed | SPiping | SClosed => true
  | SSpawned | SFinished => false
  end.

Fixpoint counted_sessions (ss : list session) : Z :=
  match ss with
  | [] => 0
  | s :: ss' => ((if counted s then 1 else 0) + counted_sessions ss')%Z
  end.

(** The session a label belongs to, if it is a session's own step. *)
Definition label_session (l : label) : option nat :=
  match l with
  | LSessAdd sid | LSessGet sid | LSessRelay sid _ | LSessClose sid | LSessDone sid => Some sid
  | _ => None
  end.

(** A pending publish is within its window at instant [now]. *)
Definition pump_within (now : Z) (p : pump) : Prop :=
  match p_pc p with
  | PSend _ since => (since ≤ now ≤ since + ten_seconds)%Z
  | _ => True
  end.

Definition session_within (now : Z) (s : session) : Prop :=
  ∀ r, s_relay s = Some r → ∀ sd, pump_within now (r_pump sd r).

(** A chunk slice: its own array, allocated after the two read buffers,
    holding between 1 and 1024 bytes. *)
Definition chunk_ok (h : heap) (c : slice) : Prop :=
  ∃ l arr, s_ptr c = Some l ∧ 2 ≤ l ∧ h !! l = Some arr
           ∧ length arr = s_len c ∧ 1 ≤ s_len c ≤ 1024.

(** Where [Pipe] leaves the two pumps: the buffer of the client side is the
    first array of the relay's heap, that of the backend side the second, and
    only the backend pump was given the pool. *)
Definition buf_loc (s : side) : nat :=
  match s with Src => 0 | Dst => 1 end.

Definition side_has_pool (s : side) : bool :=
  match s with Src => false | Dst => true end.

(** The shape every state of a relay has. *)
Record relay_wf (r : relay) : Prop := mkRelayWf {
  wf_buf : ∀ s, p_buf (r_pump s r) = mkSlice (Some (buf_loc s)) 1024;
  wf_pool : ∀ s, p_pool (r_pump s r) = side_has_pool s;
  wf_arr : ∀ s, ∃ a, r_heap r !! buf_loc s = Some a ∧ length a = 1024;
  wf_put : ∀ s, p_pc (r_pump s r) = PPut → s = Dst;
  wf_chunks : ∀ s c, c ∈ held_by_dispatch s r ++ held_by_pump s r → chunk_ok (r_heap r) c
}.

(** The arrays that are not read buffers keep their contents from [h] to
    [h']. *)
Definition chunks_stable (h h' : heap) : Prop :=
  ∀ l, 2 ≤ l → l < length h → h' !! l = h !! l.

(** The number of [pool.Put] calls along a schedule of a relay. *)
Fixpoint count_puts (tr : list (Z * relay_label)) : nat :=
  match tr with
  | [] => 0
  | (_, LPut _) :: tr' => S (count_puts tr')
  | _ :: tr' => count_puts tr'
  end.

(** A pump has left its loop and closed its channel. *)
Definition pump_closed (p : pump) : bool :=
  match p_pc p with
  | PPut | PExit => true
  | _ => false
  end.

(** The client ends first, then the backend: [Pipe] returns on the client's
    nil, and the backend pump reads end of file afterwards. *)
Definition late_backend_eof_schedule : list (Z * relay_label) :=
  [(0, LRead Src [] (Some OtherError)); (1, LSendNil Src);
   (2, LRead Dst [] (Some OtherError))]%Z.

(** The backend read times out once [Pipe] has returned: the backend pump
    closes its channel and gives the connection back. *)
Definition backend_timeout_schedule : list (Z * relay_label) :=
  [(0, LRead Src [] (Some OtherError)); (1, LSendNil Src);
   (10000000001, LRead Dst [] (Some (NetError true))); (10000000001, LClose Dst);
   (10000000001, LPut Dst)]%Z.

(** The connections [Accept] returned along a schedule, in order. *)
Fixpoint accepted (tr : list label) : list conn :=
  match tr with
  | [] => []
  | LAccept (inl c) :: tr' => c :: accepted tr'
  | _ :: tr' => accepted tr'
  end.

(** Where a session stands with the connection [c] it was started for. *)
Definition session_tracks (c : conn) (s : session) : Prop :=
  match s_pc s with
  | SSpawned | SRegistered | SGetFailed => s_conn s = c ∧ s_relay s = None
  | SPiping =>
      s_conn s = c
      ∧ ∃ r, s_relay s = Some r ∧ conn_id (r_src r) = conn_id c
             ∧ conn_closed (r_src r) = conn_closed c
  | SClosed | SFinished =>
      s_conn s = conn_close c
      ∧ ∀ r, s_relay s = Some r →
             r_disp r = DReturn ∧ conn_id (r_src r) = conn_id c
             ∧ conn_closed (r_src r) = true
  end.

(** How far the shutdown has come, read off the program counter of [main];
    [t] is the instant of the signal, kept as the listener's deadline. *)
Definition shutdown_progress {PS : Type} (opts : options) (w : @world PS) : Prop :=
  match w_main w with
  | MAwaitSignal =>
      w_listener_deadline w = None ∧ w_waiter w = WNone
      ∧ w_sock_file w = true ∧ w_exit w = None
  | MSelect expiry =>
      ∃ t, w_listener_deadline w = Some t ∧ expiry = (t + shutdown_duration opts)%Z
           ∧ (t ≤ w_now w)%Z ∧ w_waiter w ≠ WNone ∧ w_waiter w ≠ WDone
           ∧ w_sock_file w = true ∧ w_exit w = None
  | MRemove =>
      ∃ t, w_listener_deadline w = Some t ∧ (t ≤ w_now w)%Z
           ∧ (w_waiter w = WDone ∨ (t + shutdown_duration opts ≤ w_now w)%Z)
           ∧ w_sock_file w = true ∧ w_exit w = None
  | MExit =>
      ∃ t, w_listener_deadline w = Some t ∧ (t ≤ w_now w)%Z
           ∧ (w_waiter w = WDone ∨ (t + shutdown_duration opts ≤ w_now w)%Z)
           ∧ w_sock_file w = false ∧ (w_exit w = None ∨ w_exit w = Some 0%Z)
  end.

(** One session served to the end of its client's stream, then a shutdown
    that finds the wait group at zero. *)
Definition served_schedule : list label :=
  [LAccept (inl sample_client); LSessAdd 0; LSessGet 0;
   LSessRelay 0 (LRead Src chunk_hi None); LSessRelay 0 (LSend Src);
   LSessRelay 0 (LWrite 2 None); LSessRelay 0 (LRead Src [] (Some OtherError));
   LSessRelay 0 (LSendNil Src); LSessClose 0; LSessDone 0;
   LSignal SIGINT; LWaiterWait; LDrained; LRemove; LExit].

(** The client ends its stream and [Pipe] returns; afterwards the backend
    pump still reads "hi", offers it in vain for ten seconds and drops it. *)
Definition client_eof_schedule : list (Z * relay_label) :=
  [(0, LRead Src [] (Some OtherError)); (1, LSendNil Src)]%Z.

Definition after_return_schedule : list (Z * relay_label) :=
  [(2, LRead Dst chunk_hi None); (10000000002, LTimeout Dst); (10000000002, LClose Src)]%Z.

(** The client sends "hi" and ends; everything is written before [Pipe]
    returns. *)
Definition clean_end_schedule : list (Z * relay_label) :=
  [(0, LRead Src chunk_hi None); (1, LSend Src); (2, LWrite 2 None);
   (3, LRead Src [] (Some OtherError)); (4, LSendNil Src)]%Z.

(** The acceptor has stopped on the listener's deadline; a session started
    before goes on. *)
Definition stopping_schedule : list label :=
  [LAccept (inl sample_client); LSignal SIGTERM; LAccept (inr (NetError true))].

(** ** Heap and slice facts *)

Lemma ten_seconds_eq : ten_seconds = (10 * Second)%Z.
Proof. reflexivity. Qed.

Lemma store_at_length l bs h : length (store_at l bs h) = length h.
Proof. unfold store_at. destruct (h !! l); [apply length_insert | done]. Qed.

Lemma store_at_lookup_ne l l' bs h : l ≠ l' → store_at l bs h !! l' = h !! l'.
Proof.
  intros Hne. unfold store_at. destruct (h !! l); [|done].
  by apply list_lookup_insert_ne.
Qed.

Lemma store_at_lookup_eq l bs h arr :
  h !! l = Some arr → store_at l bs h !! l = Some (bs ++ drop (length bs) arr).
Proof.
  intros Hl. unfold store_at. rewrite Hl.
  apply list_lookup_insert_eq. by eapply lookup_lt_Some.
Qed.

Lemma store_at_array_length l bs h arr :
  h !! l = Some arr → length bs ≤ length arr →
  ∃ arr', store_at l bs h !! l = Some arr' ∧ length arr' = length arr ∧ take (length bs) arr' = bs.
Proof.
  intros Hl Hle. eexists; split; [by apply store_at_lookup_eq|]. split.
  - rewrite length_app, length_drop. lia.
  - by rewrite take_app_length.
Qed.

Lemma slice_bytes_ext h h' c l :
  s_ptr c = Some l → h' !! l = h !! l → slice_bytes h' c = slice_bytes h c.
Proof. intros Hp Hl. unfold slice_bytes. by rewrite Hp, Hl. Qed.

Lemma chunk_ok_stable h h' c :
  chunk_ok h c → chunks_stable h h' → chunk_ok h' c ∧ slice_bytes h' c = slice_bytes h c.
Proof.
  intros (l & arr & Hp & Hl & Harr & Hlen & Hn) Hst.
  assert (h' !! l = h !! l) as Heq by (apply Hst; [done | by eapply lookup_lt_Some]).
  split; [| by eapply slice_bytes_ext].
  exists l, arr. by rewrite Heq.
Qed.

Lemma chunk_ok_not_nil h c : chunk_ok h c → is_nil c = false.
Proof. intros (l & arr & Hp & _). unfold is_nil. by rewrite Hp. Qed.

Lemma chunk_ok_bytes_length h c : chunk_ok h c → length (slice_bytes h c) = s_len c.
Proof.
  intros (l & arr & Hp & _ & Harr & Hlen & _). unfold slice_bytes.
  rewrite Hp, Harr. simpl. rewrite length_take. lia.
Qed.

(** What one pass of the pump does to the heap, for a pump whose buffer is
    the array [b] of 1024 bytes. *)
Lemma pump_after_read_heap now data err p h b a :
  p_buf p = mkSlice (Some b) 1024 → h !! b = Some a → length a = 1024 →
  length data ≤ 1024 →
  ∀ p' h', pump_after_read now data err p h = (p', h') →
  p_buf p' = p_buf p ∧ p_pool p' = p_pool p
  ∧ (∃ a', h' !! b = Some a' ∧ length a' = 1024)
  ∧ (∀ l, l ≠ b → l < length h → h' !! l = h !! l)
  ∧ length h ≤ length h'
  ∧ match p_pc p' with
    | PSend res since =>
        err = None ∧ since = now ∧ 1 ≤ length data
        ∧ res = mkSlice (Some (length h)) (length data)
        ∧ h' !! length h = Some data
    | PSendNil => ∃ e, err = Some e ∧ is_net_timeout e = false
    | PClose => ∃ e, err = Some e ∧ is_net_timeout e = true
    | PRead => err = None ∧ data = []
    | _ => False
    end.
Proof.
  intros Hb Ha Hlen Hdata p' h'. unfold pump_after_read, conn_read_into.
  rewrite Hb. simpl.
  destruct (store_at_array_length b data h a Ha) as (a1 & Ha1 & Hlen1 & Htake); [lia|].
  assert (∀ l, l ≠ b → store_at b data h !! l = h !! l) as Hne
    by (intros; by apply store_at_lookup_ne).
  destruct err as [e|].
  - destruct (is_net_timeout e) eqn:He; simpl; intros [= <- <-]; simpl;
      (split_and!; [done | done | exists a1; split; [done | lia] | by intros; apply Hne
                   | by rewrite store_at_length | by eauto]).
  - destruct (0 <? length data) eqn:Hn.
    + apply Nat.ltb_lt in Hn. unfold make, copy, reslice, slice_bytes. simpl.
      rewrite store_at_length.
      intros [= <- <-]. simpl.
      assert (b < length h) as Hbl by (by eapply lookup_lt_Some).
      rewrite (lookup_app_l _ _ b) by (rewrite store_at_length; lia).
      rewrite Ha1. simpl. rewrite Nat.min_id.
      assert (take (length data) (take (length data) a1) = data) as Hcopy.
      { rewrite take_take, Nat.min_id. done. }
      rewrite Hcopy.
      assert ((store_at b data h ++ [repeat x00 (length data)]) !! length h
              = Some (repeat x00 (length data))) as Hnew.
      { rewrite lookup_app_r by (rewrite store_at_length; lia).
        rewrite store_at_length, Nat.sub_diag. done. }
      split_and!; [done | done | | | | done | done | lia | done | ].
      * exists a1. split; [|lia].
        rewrite store_at_lookup_ne by lia.
        rewrite lookup_app_l by (rewrite store_at_length; lia). done.
      * intros l Hl Hlt. rewrite store_at_lookup_ne by lia.
        rewrite lookup_app_l by (rewrite store_at_length; lia). by apply Hne.
      * rewrite store_at_length, length_app, store_at_length. lia.
      * rewrite (store_at_lookup_eq _ _ _ _ Hnew).
        rewrite drop_ge by (rewrite repeat_length; lia). by rewrite app_nil_r.
    + apply Nat.ltb_ge in Hn. intros [= <- <-]. simpl.
      split_and!; [done | done | | | | done | ].
      * exists a1. split; [done | lia].
      * by intros; apply Hne.
      * by rewrite store_at_length.
      * destruct data; [done | simpl in Hn; lia].
Qed.

(** ** Reading a relay after an update *)

Lemma r_pump_set_pump s s' p r :
  r_pump s' (set_pump s p r) = if side_eqb s' s then p else r_pump s' r.
Proof. by destruct s, s'. Qed.

Lemma r_pump_set_pump_eq s p r : r_pump s (set_pump s p r) = p.
Proof. by destruct s. Qed.

Lemma r_pump_set_pump_other s p r : r_pump (other s) (set_pump s p r) = r_pump (other s) r.
Proof. by destruct s. Qed.

Lemma r_pump_set_heap s h r : r_pump s (set_heap h r) = r_pump s r.
Proof. by destruct s. Qed.

Lemma r_pump_set_conn s s' c r : r_pump s (set_conn s' c r) = r_pump s r.
Proof. by destruct s, s'. Qed.

Lemma r_pump_set_disp s d r : r_pump s (set_disp d r) = r_pump s r.
Proof. by destruct s. Qed.

Lemma r_pump_set_chan_closed s s' r : r_pump s (set_chan_closed s' r) = r_pump s r.
Proof. by destruct s, s'. Qed.

Lemma r_heap_set_pump s p r : r_heap (set_pump s p r) = r_heap r.
Proof. by destruct s. Qed.

Lemma r_heap_set_conn s c r : r_heap (set_conn s c r) = r_heap r.
Proof. by destruct s. Qed.

Lemma r_heap_set_chan_closed s r : r_heap (set_chan_closed s r) = r_heap r.
Proof. by destruct s. Qed.

Lemma r_disp_set_pump s p r : r_disp (set_pump s p r) = r_disp r.
Proof. by destruct s. Qed.

Lemma r_disp_set_conn s c r : r_disp (set_conn s c r) = r_disp r.
Proof. by destruct s. Qed.

Lemma r_disp_set_chan_closed s r : r_disp (set_chan_closed s r) = r_disp r.
Proof. by destruct s. Qed.

Lemma r_conn_set_pump s s' p r : r_conn s (set_pump s' p r) = r_conn s r.
Proof. by destruct s, s'. Qed.

Lemma r_conn_set_heap s h r : r_conn s (set_heap h r) = r_conn s r.
Proof. by destruct s. Qed.

Lemma r_conn_set_disp s d r : r_conn s (set_disp d r) = r_conn s r.
Proof. by destruct s. Qed.

Lemma r_conn_set_chan_closed s s' r : r_conn s (set_chan_closed s' r) = r_conn s r.
Proof. by destruct s, s'. Qed.

Lemma r_conn_set_conn s s' c r :
  r_conn s' (set_conn s c r) = if side_eqb s' s then c else r_conn s' r.
Proof. by destruct s, s'. Qed.

Lemma r_closed_set_pump s s' p r : r_closed s (set_pump s' p r) = r_closed s r.
Proof. by destruct s, s'. Qed.

Lemma r_closed_set_heap s h r : r_closed s (set_heap h r) = r_closed s r.
Proof. by destruct s. Qed.

Lemma r_closed_set_conn s s' c r : r_closed s (set_conn s' c r) = r_closed s r.
Proof. by destruct s, s'. Qed.

Lemma r_closed_set_disp s d r : r_closed s (set_disp d r) = r_closed s r.
Proof. by destruct s. Qed.

Lemma r_closed_set_chan_closed s s' r :
  r_closed s' (set_chan_closed s r) = if side_eqb s' s then true else r_closed s' r.
Proof. by destruct s, s'. Qed.

Lemma side_eqb_refl s : side_eqb s s = true.
Proof. by destruct s. Qed.

Lemma side_eqb_eq a b : side_eqb a b = true ↔ a = b.
Proof. by destruct a, b. Qed.

Lemma side_eqb_other s : side_eqb (other s) s = false.
Proof. by destruct s. Qed.

Lemma side_eqb_other_r s : side_eqb s (other s) = false.
Proof. by destruct s. Qed.

Create Rewrite HintDb relay.

#[local] Hint Rewrite r_pump_set_pump r_pump_set_heap r_pump_set_conn r_pump_set_disp
  r_pump_set_chan_closed r_heap_set_pump r_heap_set_conn r_heap_set_chan_closed
  r_disp_set_pump r_disp_set_conn r_disp_set_chan_closed r_conn_set_pump r_conn_set_heap
  r_conn_set_disp r_conn_set_chan_closed r_conn_set_conn r_closed_set_pump r_closed_set_heap
  r_closed_set_conn r_closed_set_disp r_closed_set_chan_closed side_eqb_refl
  side_eqb_other side_eqb_other_r : relay.

(** ** Every state of a relay is well formed *)

Lemma Pipe_wf src dst : relay_wf (Pipe src dst).
Proof.
  split.
  - by intros [].
  - by intros [].
  - intros []; exists (repeat x00 1024); by rewrite repeat_length.
  - by intros [].
  - intros [] c Hc; simpl in Hc; inversion Hc.
Qed.

Lemma buf_loc_lt s : buf_loc s < 2.
Proof. destruct s; simpl; lia. Qed.

Lemma buf_loc_inj s s' : buf_loc s = buf_loc s' → s = s'.
Proof. by destruct s, s'. Qed.

Lemma chunks_stable_refl h : chunks_stable h h.
Proof. by intros l. Qed.

Lemma chunks_stable_trans h1 h2 h3 :
  length h1 ≤ length h2 → chunks_stable h1 h2 → chunks_stable h2 h3 → chunks_stable h1 h3.
Proof. intros Hlen H12 H23 l Hl Hlt. rewrite H23 by lia. by apply H12. Qed.

Lemma held_by_pump_elem s r c :
  c ∈ held_by_pump s r ↔ ∃ t, p_pc (r_pump s r) = PSend c t.
Proof.
  unfold held_by_pump. destruct (p_pc (r_pump s r)) eqn:Hpc.
  all: try (split; [by intros ?%elem_of_nil | by intros [? ?]]).
  rewrite list_elem_of_singleton. split; [intros ->; eauto | by intros [? [= -> _]]].
Qed.

Lemma held_by_dispatch_elem s r c :
  c ∈ held_by_dispatch s r ↔ r_disp r = DWrite s c.
Proof.
  unfold held_by_dispatch. destruct (r_disp r) as [|from c'|] eqn:Hd.
  all: try (split; [by intros ?%elem_of_nil | done]).
  destruct (side_eqb s from) eqn:Hs.
  - apply side_eqb_eq in Hs as ->. rewrite list_elem_of_singleton.
    split; [by intros -> | by intros [= ->]].
  - split; [by intros ?%elem_of_nil |].
    intros [= -> ->]. by rewrite side_eqb_refl in Hs.
Qed.

Lemma held_elem s r c :
  c ∈ held_by_dispatch s r ++ held_by_pump s r ↔
  r_disp r = DWrite s c ∨ ∃ t, p_pc (r_pump s r) = PSend c t.
Proof. by rewrite elem_of_app, held_by_dispatch_elem, held_by_pump_elem. Qed.

Lemma dispatch_chunk now s v r :
  is_nil v = false → dispatch now s v r = set_disp (DWrite s v) r.
Proof. intros Hv. unfold dispatch. by rewrite Hv. Qed.

Lemma dispatch_nil now s r :
  dispatch now s nil_slice r =
  match s with
  | Src => set_disp DReturn (set_conn Dst (conn_set_deadline (now + ten_seconds) (r_dst r)) r)
  | Dst => set_disp DReturn r
  end.
Proof. done. Qed.

Lemma dispatch_nil_frame now s r :
  r_heap (dispatch now s nil_slice r) = r_heap r
  ∧ r_disp (dispatch now s nil_slice r) = DReturn
  ∧ (∀ s', r_pump s' (dispatch now s nil_slice r) = r_pump s' r)
  ∧ (∀ s', r_closed s' (dispatch now s nil_slice r) = r_closed s' r)
  ∧ (∀ s', conn_writes (r_conn s' (dispatch now s nil_slice r)) = conn_writes (r_conn s' r)).
Proof. rewrite dispatch_nil. destruct s; split_and!; try done; by intros []. Qed.

(** A step that leaves the heap alone keeps the shape when it publishes
    nothing new. *)
Lemma relay_wf_frame r r' :
  relay_wf r → r_heap r' = r_heap r →
  (∀ s, p_buf (r_pump s r') = p_buf (r_pump s r)) →
  (∀ s, p_pool (r_pump s r') = p_pool (r_pump s r)) →
  (∀ s c, r_disp r' = DWrite s c ∨ (∃ t, p_pc (r_pump s r') = PSend c t) →
          ∃ s', r_disp r = DWrite s' c ∨ ∃ t, p_pc (r_pump s' r) = PSend c t) →
  (∀ s, p_pc (r_pump s r') = PPut → p_pc (r_pump s r) = PPut ∨ p_pool (r_pump s r) = true) →
  relay_wf r'.
Proof.
  intros Hwf Hh Hb Hp Hc Hput. split.
  - intros s. rewrite Hb. by apply wf_buf.
  - intros s. rewrite Hp. by apply wf_pool.
  - intros s. rewrite Hh. by apply wf_arr.
  - intros s Hs. destruct (Hput s Hs) as [Hold|Hpool]; [by apply (wf_put r)|].
    rewrite (wf_pool r Hwf) in Hpool. by destruct s.
  - intros s c Hin. rewrite Hh. apply held_elem, Hc in Hin as [s' Hin].
    by apply (wf_chunks r Hwf s'), held_elem.
Qed.

Lemma r_pump_dispatch now s s' v r : r_pump s' (dispatch now s v r) = r_pump s' r.
Proof. unfold dispatch. destruct (is_nil v), s, s'; done. Qed.

Lemma r_heap_dispatch now s v r : r_heap (dispatch now s v r) = r_heap r.
Proof. unfold dispatch. destruct (is_nil v), s; done. Qed.

Lemma r_closed_dispatch now s s' v r : r_closed s' (dispatch now s v r) = r_closed s' r.
Proof. unfold dispatch. destruct (is_nil v), s, s'; done. Qed.

Lemma r_pump_dispatch_after_write s from c n err r :
  r_pump s (dispatch_after_write from c n err r) = r_pump s r.
Proof. unfold dispatch_after_write. by destruct s, from. Qed.

#[local] Hint Rewrite r_pump_dispatch r_heap_dispatch r_closed_dispatch
  r_pump_dispatch_after_write : relay.

Section RelayInvariant.
Context {PS : Type} `{Pool PS}.

Lemma relay_step_wf now l (ps ps' : PS) r r' :
  relay_wf r → relay_step now l (ps, r) = Some (ps', r') →
  relay_wf r' ∧ chunks_stable (r_heap r) (r_heap r') ∧ length (r_heap r) ≤ length (r_heap r').
Proof.
  intros Hwf Hstep.
  destruct l as [s data err|s|s|s|s|s|s|n err]; simpl in Hstep.
  - (* Read *)
    destruct (p_pc (r_pump s r)) eqn:Hpc; try done.
    pose proof (wf_buf r Hwf s) as Hb.
    destruct (wf_arr r Hwf s) as (a & Ha & Hla).
    rewrite Hb in Hstep. simpl in Hstep.
    destruct (length data <=? 1024) eqn:Hlen; [|done].
    apply Nat.leb_le in Hlen.
    destruct (pump_after_read now data err (r_pump s r) (r_heap r)) as [p' h'] eqn:Hpar.
    injection Hstep as <- <-.
    destruct (pump_after_read_heap now data err _ _ _ a Hb Ha Hla Hlen _ _ Hpar)
      as (Hbuf & Hpool & Hown & Hother & Hgrow & Hcase).
    pose proof (buf_loc_lt s) as Hlt.
    assert (chunks_stable (r_heap r) h') as Hst.
    { intros l Hl Hl'. apply Hother; lia. }
    autorewrite with relay. simpl. split; [|done].
    split.
    + intros s0. autorewrite with relay.
      destruct (side_eqb s0 s) eqn:Hs; [|by apply wf_buf].
      apply side_eqb_eq in Hs as ->. by rewrite Hbuf.
    + intros s0. autorewrite with relay.
      destruct (side_eqb s0 s) eqn:Hs; [|by apply wf_pool].
      apply side_eqb_eq in Hs as ->. rewrite Hpool. by apply wf_pool.
    + intros s0. autorewrite with relay. simpl.
      destruct (decide (s0 = s)) as [->|Hne]; [done|].
      destruct (wf_arr r Hwf s0) as (a0 & Ha0 & Hl0). exists a0.
      rewrite Hother; [done | | by eapply lookup_lt_Some].
      intros Heq. by apply buf_loc_inj in Heq.
    + intros s0. autorewrite with relay.
      destruct (side_eqb s0 s) eqn:Hs; [|by apply wf_put].
      intros Hp. by rewrite Hp in Hcase.
    + intros s0 c. rewrite held_elem. autorewrite with relay. simpl.
      intros [Hd|[t Hp]].
      * apply (chunk_ok_stable (r_heap r)); [|done].
        apply (wf_chunks r Hwf s0), held_elem. by left.
      * destruct (side_eqb s0 s) eqn:Hs.
        -- rewrite Hp in Hcase. destruct Hcase as (_ & _ & Hn & -> & Hnew).
           assert (2 ≤ length (r_heap r)).
           { destruct (wf_arr r Hwf Dst) as (a1 & Ha1 & _).
             apply lookup_lt_Some in Ha1. simpl in Ha1. lia. }
           exists (length (r_heap r)), data. simpl. split_and!; try done; lia.
        -- apply (chunk_ok_stable (r_heap r)); [|done].
           apply (wf_chunks r Hwf s0), held_elem. right. eauto.
  - (* Send *)
    destruct (p_pc (r_pump s r)) as [|res since| | | |] eqn:Hpc; try done.
    destruct (is_select (r_disp r)) eqn:Hsel; [|done].
    destruct (r_disp r) eqn:Hd; try done.
    assert (chunk_ok (r_heap r) res) as Hres.
    { apply (wf_chunks r Hwf s), held_elem. right. eauto. }
    rewrite dispatch_chunk in Hstep by (by eapply chunk_ok_not_nil).
    injection Hstep as <- <-. simpl. autorewrite with relay.
    split; [|split; [apply chunks_stable_refl | done]].
    apply (relay_wf_frame r); [done | by simpl; autorewrite with relay | | | |].
    + intros s0. autorewrite with relay. by destruct (side_eqb s0 s) eqn:Hs;
        [apply side_eqb_eq in Hs as ->|].
    + intros s0. autorewrite with relay. by destruct (side_eqb s0 s) eqn:Hs;
        [apply side_eqb_eq in Hs as ->|].
    + intros s0 c. simpl. autorewrite with relay.
      intros [[= <- <-]|[t Hp]]; [exists s; right; eauto|].
      destruct (side_eqb s0 s); [done|]. exists s0. right. eauto.
    + intros s0. autorewrite with relay. destruct (side_eqb s0 s); [done | by left].
  - (* Timeout *)
    destruct (p_pc (r_pump s r)) as [|res since| | | |] eqn:Hpc; try done.
    destruct (since + ten_seconds <=? now)%Z; [|done].
    injection Hstep as <- <-. autorewrite with relay.
    split; [|split; [apply chunks_stable_refl | done]].
    apply (relay_wf_frame r); [done | by autorewrite with relay | | | |].
    + intros s0. autorewrite with relay. by destruct (side_eqb s0 s) eqn:Hs;
        [apply side_eqb_eq in Hs as ->|].
    + intros s0. autorewrite with relay. by destruct (side_eqb s0 s) eqn:Hs;
        [apply side_eqb_eq in Hs as ->|].
    + intros s0 c. autorewrite with relay.
      intros [Hd|[t Hp]]; [exists s0; by left|].
      destruct (side_eqb s0 s); [done|]. exists s0. right. eauto.
    + intros s0. autorewrite with relay. destruct (side_eqb s0 s); [done | by left].
  - (* SendNil *)
    destruct (p_pc (r_pump s r)) eqn:Hpc; try done.
    destruct (is_select (r_disp r)) eqn:Hsel; [|done].
    injection Hstep as <- <-.
    destruct (dispatch_nil_frame now s (set_pump s (pump_after_send_nil (r_pump s r)) r))
      as (Hh & Hd & Hp & _ & _).
    rewrite Hh. autorewrite with relay.
    split; [|split; [apply chunks_stable_refl | done]].
    apply (relay_wf_frame r); [done | by rewrite Hh; autorewrite with relay | | | |].
    + intros s0. rewrite Hp. autorewrite with relay. by destruct (side_eqb s0 s) eqn:Hs;
        [apply side_eqb_eq in Hs as ->|].
    + intros s0. rewrite Hp. autorewrite with relay. by destruct (side_eqb s0 s) eqn:Hs;
        [apply side_eqb_eq in Hs as ->|].
    + intros s0 c. rewrite Hd, Hp. autorewrite with relay.
      intros [?|[t Hpp]]; [done|].
      destruct (side_eqb s0 s); [done|]. exists s0. right. eauto.
    + intros s0. rewrite Hp. autorewrite with relay.
      destruct (side_eqb s0 s); [done | by left].
  - (* Close *)
    destruct (p_pc (r_pump s r)) eqn:Hpc; try done.
    injection Hstep as <- <-. autorewrite with relay.
    split; [|split; [apply chunks_stable_refl | done]].
    apply (relay_wf_frame r); [done | by autorewrite with relay | | | |].
    + intros s0. autorewrite with relay. by destruct (side_eqb s0 s) eqn:Hs;
        [apply side_eqb_eq in Hs as ->|].
    + intros s0. autorewrite with relay. by destruct (side_eqb s0 s) eqn:Hs;
        [apply side_eqb_eq in Hs as ->|].
    + intros s0 c. autorewrite with relay.
      intros [Hd|[t Hp]]; [exists s0; by left|].
      destruct (side_eqb s0 s); [|exists s0; right; eauto].
      simpl in Hp. by destruct (p_pool (r_pump s r)).
    + intros s0. autorewrite with relay.
      destruct (side_eqb s0 s) eqn:Hs; [|by left].
      apply side_eqb_eq in Hs as ->. simpl.
      destruct (p_pool (r_pump s r)); [by right | done].
  - (* Put *)
    destruct (p_pc (r_pump s r)) eqn:Hpc; try done.
    injection Hstep as <- <-. autorewrite with relay.
    split; [|split; [apply chunks_stable_refl | done]].
    apply (relay_wf_frame r); [done | by autorewrite with relay | | | |].
    + intros s0. autorewrite with relay. by destruct (side_eqb s0 s) eqn:Hs;
        [apply side_eqb_eq in Hs as ->|].
    + intros s0. autorewrite with relay. by destruct (side_eqb s0 s) eqn:Hs;
        [apply side_eqb_eq in Hs as ->|].
    + intros s0 c. autorewrite with relay.
      intros [Hd|[t Hp]]; [exists s0; by left|].
      destruct (side_eqb s0 s); [done|]. exists s0. right. eauto.
    + intros s0. autorewrite with relay. destruct (side_eqb s0 s); [done | by left].
  - (* RecvClosed *)
    destruct (r_closed s r && is_select (r_disp r)); [|done].
    injection Hstep as <- <-.
    destruct (dispatch_nil_frame now s r) as (Hh & Hd & Hp & _ & _).
    rewrite Hh.
    split; [|split; [apply chunks_stable_refl | done]].
    apply (relay_wf_frame r); [done | done | | | |].
    + intros s0. by rewrite Hp.
    + intros s0. by rewrite Hp.
    + intros s0 c. rewrite Hd, Hp. intros [?|[t Hpp]]; [done|]. exists s0. right. eauto.
    + intros s0. rewrite Hp. by left.
  - (* Write *)
    destruct (r_disp r) as [|from chunk|] eqn:Hd; try done.
    destruct (write_result_ok _ n err); [|done].
    injection Hstep as <- <-. unfold dispatch_after_write. simpl. autorewrite with relay.
    split; [|split; [apply chunks_stable_refl | done]].
    apply (relay_wf_frame r); [done | by simpl; autorewrite with relay | | | |].
    + intros s0. by autorewrite with relay.
    + intros s0. by autorewrite with relay.
    + intros s0 c. simpl. autorewrite with relay.
      intros [?|[t Hp]]; [done|]. exists s0. right. eauto.
    + intros s0. autorewrite with relay. by left.
Qed.

Lemma relay_run_wf tr (ps ps' : PS) r r' :
  relay_wf r → relay_run tr (ps, r) = Some (ps', r') →
  relay_wf r' ∧ chunks_stable (r_heap r) (r_heap r') ∧ length (r_heap r) ≤ length (r_heap r').
Proof.
  revert ps r. induction tr as [|[now l] tr IH]; intros ps r Hwf Hrun; cbn [relay_run] in Hrun.
  - injection Hrun as <- <-. split; [done|]. split; [apply chunks_stable_refl | done].
  - destruct (relay_step now l (ps, r)) as [[ps1 r1]|] eqn:Hstep; [|done].
    destruct (relay_step_wf _ _ _ _ _ _ Hwf Hstep) as (Hwf1 & Hst1 & Hlen1).
    destruct (IH _ _ Hwf1 Hrun) as (Hwf' & Hst' & Hlen').
    split; [done|]. split; [by eapply chunks_stable_trans | lia].
Qed.

Lemma relay_run_app tr1 tr2 (st : PS * relay) :
  relay_run (tr1 ++ tr2) st = relay_run tr1 st ≫= relay_run tr2.
Proof.
  revert st. induction tr1 as [|[now l] tr1 IH]; intros st; cbn [relay_run app]; [done|].
  destruct (relay_step now l st); [apply IH | done].
Qed.


(** A pump starts a publish only out of a [Read] that returned no error and
    at least one byte, and what it offers is a new array holding those
    bytes. *)
Lemma relay_step_new_publish now l (ps ps' : PS) r r' s res t :
  relay_wf r → relay_step now l (ps, r) = Some (ps', r') →
  p_pc (r_pump s r') = PSend res t → p_pc (r_pump s r) ≠ PSend res t →
  ∃ data, l = LRead s data None ∧ t = now ∧ 1 ≤ length data ≤ 1024
          ∧ res = mkSlice (Some (length (r_heap r))) (length data)
          ∧ slice_bytes (r_heap r') res = data.
Proof.
  intros Hwf Hstep Hnew Hold.
  destruct l as [s1 data err|s1|s1|s1|s1|s1|s1|n err]; simpl in Hstep.
  - destruct (p_pc (r_pump s1 r)) eqn:Hpc; try done.
    pose proof (wf_buf r Hwf s1) as Hb.
    destruct (wf_arr r Hwf s1) as (a & Ha & Hla).
    rewrite Hb in Hstep. simpl in Hstep.
    destruct (length data <=? 1024) eqn:Hlen; [|done].
    apply Nat.leb_le in Hlen.
    destruct (pump_after_read now data err (r_pump s1 r) (r_heap r)) as [p' h'] eqn:Hpar.
    injection Hstep as <- <-.
    destruct (pump_after_read_heap now data err _ _ _ a Hb Ha Hla Hlen _ _ Hpar)
      as (_ & _ & _ & _ & _ & Hcase).
    autorewrite with relay in Hnew.
    destruct (side_eqb s s1) eqn:Hs; [|done].
    apply side_eqb_eq in Hs as ->.
    rewrite Hnew in Hcase. destruct Hcase as (-> & -> & Hn & -> & Hdata).
    exists data. autorewrite with relay. simpl.
    split_and!; try done.
    unfold slice_bytes. simpl. rewrite Hdata. simpl. by rewrite firstn_all.
  - destruct (p_pc (r_pump s1 r)) eqn:Hpc; try done.
    destruct (is_select (r_disp r)); [|done]. injection Hstep as <- <-.
    autorewrite with relay in Hnew. by destruct (side_eqb s s1).
  - destruct (p_pc (r_pump s1 r)) eqn:Hpc; try done.
    destruct (_ <=? _)%Z; [|done]. injection Hstep as <- <-.
    autorewrite with relay in Hnew. by destruct (side_eqb s s1).
  - destruct (p_pc (r_pump s1 r)) eqn:Hpc; try done.
    destruct (is_select (r_disp r)); [|done]. injection Hstep as <- <-.
    autorewrite with relay in Hnew. by destruct (side_eqb s s1).
  - destruct (p_pc (r_pump s1 r)) eqn:Hpc; try done.
    injection Hstep as <- <-.
    autorewrite with relay in Hnew. destruct (side_eqb s s1); [|done].
    simpl in Hnew. by destruct (p_pool (r_pump s1 r)).
  - destruct (p_pc (r_pump s1 r)) eqn:Hpc; try done.
    injection Hstep as <- <-.
    autorewrite with relay in Hnew. by destruct (side_eqb s s1).
  - destruct (r_closed s1 r && is_select (r_disp r)); [|done].
    injection Hstep as <- <-. by autorewrite with relay in Hnew.
  - destruct (r_disp r) as [|from chunk|] eqn:Hd; try done.
    destruct (write_result_ok _ n err); [|done].
    injection Hstep as <- <-. by autorewrite with relay in Hnew.
Qed.


#[local] Arguments chunk_of : simpl never.

(** How one step moves the chunks of direction [s] (read by the pump of side
    [s], written to the other side): a chunk enters the flight when it is
    read, leaves it at the front when the dispatch loop writes it, and leaves
    it at the back when its publish is abandoned. *)
Lemma relay_step_flow s now l (ps ps' : PS) r r' :
  relay_wf r → relay_step now l (ps, r) = Some (ps', r') →
  (is_timeout_of s l = false
   ∧ conn_writes (r_conn (other s) r') = conn_writes (r_conn (other s) r)
   ∧ in_flight s r' = in_flight s r ++ chunk_of s l)
  ∨ (is_timeout_of s l = true ∧ chunk_of s l = []
     ∧ conn_writes (r_conn (other s) r') = conn_writes (r_conn (other s) r)
     ∧ ∃ x, in_flight s r = in_flight s r' ++ [x])
  ∨ (is_timeout_of s l = false ∧ chunk_of s l = []
     ∧ ∃ x, conn_writes (r_conn (other s) r') = conn_writes (r_conn (other s) r) ++ [x]
            ∧ in_flight s r = x :: in_flight s r').
Proof.
  intros Hwf Hstep.
  destruct l as [s1 data err|s1|s1|s1|s1|s1|s1|n err]; simpl in Hstep;
    try change (chunk_of s _) with (@nil (list byte)).
  - (* Read *)
    left. split; [done|].
    destruct (p_pc (r_pump s1 r)) eqn:Hpc; try done.
    pose proof (wf_buf r Hwf s1) as Hb.
    destruct (wf_arr r Hwf s1) as (a & Ha & Hla).
    rewrite Hb in Hstep. simpl in Hstep.
    destruct (length data <=? 1024) eqn:Hlen; [|done].
    apply Nat.leb_le in Hlen.
    destruct (pump_after_read now data err (r_pump s1 r) (r_heap r)) as [p' h'] eqn:Hpar.
    injection Hstep as <- <-.
    destruct (pump_after_read_heap now data err _ _ _ a Hb Ha Hla Hlen _ _ Hpar)
      as (_ & _ & _ & Hother & _ & Hcase).
    pose proof (buf_loc_lt s1) as Hlt.
    assert (chunks_stable (r_heap r) h') as Hst.
    { intros l Hl Hl'. apply Hother; lia. }
    autorewrite with relay. split; [done|].
    assert (∀ c, c ∈ held_by_dispatch s r ++ held_by_pump s r →
                 slice_bytes h' c = slice_bytes (r_heap r) c) as Hsame.
    { intros c Hc. by apply chunk_ok_stable; [apply (wf_chunks r Hwf s)|]. }
    unfold in_flight, held_by_dispatch, held_by_pump in *.
    autorewrite with relay. simpl.
    destruct (side_eqb s s1) eqn:Hs.
    + apply side_eqb_eq in Hs as ->. rewrite Hpc in *. rewrite app_nil_r in *.
      rewrite fmap_app. f_equal.
      * apply list_fmap_ext. intros i c Hi. apply Hsame. by eapply list_elem_of_lookup_2.
      * unfold chunk_of. rewrite side_eqb_refl. simpl.
        destruct (p_pc p') eqn:Hp'; simpl.
        -- destruct Hcase as [-> ->]. done.
        -- destruct Hcase as (-> & _ & Hn & -> & Hdata).
           apply Nat.ltb_lt in Hn. rewrite Hn. simpl.
           unfold slice_bytes. simpl. rewrite Hdata. simpl. by rewrite firstn_all.
        -- by destruct Hcase as (e & -> & _).
        -- by destruct Hcase as (e & -> & _).
        -- done.
        -- done.
    + assert (chunk_of s (LRead s1 data err) = []) as ->.
      { unfold chunk_of. destruct err; [done|]. by rewrite Hs. }
      rewrite app_nil_r. apply list_fmap_ext. intros i c Hi.
      apply Hsame. by eapply list_elem_of_lookup_2.
  - (* Send *)
    left. split; [done|].
    destruct (p_pc (r_pump s1 r)) as [|res since| | | |] eqn:Hpc; try done.
    destruct (is_select (r_disp r)) eqn:Hsel; [|done].
    destruct (r_disp r) eqn:Hd; try done.
    assert (chunk_ok (r_heap r) res) as Hres.
    { apply (wf_chunks r Hwf s1), held_elem. right. eauto. }
    rewrite dispatch_chunk in Hstep by (by eapply chunk_ok_not_nil).
    injection Hstep as <- <-. simpl. autorewrite with relay.
    split; [done|]. rewrite app_nil_r.
    unfold in_flight, held_by_dispatch, held_by_pump. simpl. autorewrite with relay.
    rewrite Hd. simpl.
    destruct (side_eqb s s1) eqn:Hs.
    + apply side_eqb_eq in Hs as ->. by rewrite Hpc.
    + done.
  - (* Timeout *)
    destruct (p_pc (r_pump s1 r)) as [|res since| | | |] eqn:Hpc; try done.
    destruct (since + ten_seconds <=? now)%Z; [|done].
    injection Hstep as <- <-. autorewrite with relay.
    destruct (side_eqb s s1) eqn:Hs.
    + right. left. apply side_eqb_eq in Hs as ->. simpl. rewrite side_eqb_refl.
      split_and!; try done.
      exists (slice_bytes (r_heap r) res).
      unfold in_flight, held_by_dispatch, held_by_pump. autorewrite with relay.
      rewrite Hpc. simpl. by rewrite app_nil_r, fmap_app.
    + left. simpl. rewrite Hs. split_and!; try done. rewrite app_nil_r.
      unfold in_flight, held_by_dispatch, held_by_pump. autorewrite with relay.
      by rewrite Hs.
  - (* SendNil *)
    left. split; [done|].
    destruct (p_pc (r_pump s1 r)) eqn:Hpc; try done.
    destruct (is_select (r_disp r)) eqn:Hsel; [|done].
    destruct (r_disp r) eqn:Hd; try done.
    injection Hstep as <- <-.
    destruct (dispatch_nil_frame now s1 (set_pump s1 (pump_after_send_nil (r_pump s1 r)) r))
      as (Hh & Hdd & Hp & _ & Hw).
    rewrite app_nil_r. split; [rewrite Hw; by autorewrite with relay|].
    unfold in_flight, held_by_dispatch, held_by_pump.
    rewrite Hh, Hdd, Hp. autorewrite with relay. rewrite Hd. simpl.
    destruct (side_eqb s s1) eqn:Hs; [|done].
    apply side_eqb_eq in Hs as ->. by rewrite Hpc.
  - (* Close *)
    left. split; [done|].
    destruct (p_pc (r_pump s1 r)) eqn:Hpc; try done.
    injection Hstep as <- <-. autorewrite with relay. simpl. rewrite app_nil_r.
    split; [done|].
    unfold in_flight, held_by_dispatch, held_by_pump. autorewrite with relay.
    destruct (side_eqb s s1) eqn:Hs; [|done].
    apply side_eqb_eq in Hs as ->. rewrite Hpc. simpl. by destruct (p_pool _).
  - (* Put *)
    left. split; [done|].
    destruct (p_pc (r_pump s1 r)) eqn:Hpc; try done.
    injection Hstep as <- <-. autorewrite with relay. simpl. rewrite app_nil_r.
    split; [done|].
    unfold in_flight, held_by_dispatch, held_by_pump. autorewrite with relay.
    destruct (side_eqb s s1) eqn:Hs; [|done].
    apply side_eqb_eq in Hs as ->. by rewrite Hpc.
  - (* RecvClosed *)
    left. split; [done|].
    destruct (r_closed s1 r && is_select (r_disp r)) eqn:Hg; [|done].
    apply andb_true_iff in Hg as [_ Hsel].
    destruct (r_disp r) eqn:Hd; try done.
    injection Hstep as <- <-.
    destruct (dispatch_nil_frame now s1 r) as (Hh & Hdd & Hp & _ & Hw).
    rewrite app_nil_r. split; [by rewrite Hw|].
    unfold in_flight, held_by_dispatch, held_by_pump.
    rewrite Hh, Hdd, Hp. by rewrite Hd.
  - (* Write *)
    destruct (r_disp r) as [|from chunk|] eqn:Hd; try done.
    destruct (write_result_ok _ n err); [|done].
    injection Hstep as <- <-. unfold dispatch_after_write.
    destruct (side_eqb s from) eqn:Hs.
    + right. right. apply side_eqb_eq in Hs as ->.
      split_and!; try done.
      exists (slice_bytes (r_heap r) chunk). simpl. autorewrite with relay. simpl.
      split; [done|].
      unfold in_flight, held_by_dispatch, held_by_pump. simpl. autorewrite with relay.
      rewrite Hd. simpl. by autorewrite with relay.
    + left. split_and!; try done.
      * simpl. autorewrite with relay.
        destruct (side_eqb (other s) (other from)) eqn:Hs'; [|done].
        apply side_eqb_eq in Hs'. destruct s, from; done.
      * simpl. rewrite app_nil_r.
        unfold in_flight, held_by_dispatch, held_by_pump. simpl. autorewrite with relay.
        rewrite Hd. simpl. by rewrite Hs.
Qed.


Lemma chunks_read_cons s now l tr :
  chunks_read s ((now, l) :: tr) = chunk_of s l ++ chunks_read s tr.
Proof. done. Qed.

Lemma relay_run_flow s tr (ps ps' : PS) r r' base fw reads :
  relay_wf r → relay_run tr (ps, r) = Some (ps', r') →
  conn_writes (r_conn (other s) r) = base ++ fw →
  fw ++ in_flight s r `sublist_of` reads →
  ∃ fw', conn_writes (r_conn (other s) r') = base ++ fw'
         ∧ fw' ++ in_flight s r' `sublist_of` reads ++ chunks_read s tr
         ∧ (never_timed_out s tr = true → reads = fw ++ in_flight s r →
            reads ++ chunks_read s tr = fw' ++ in_flight s r').
Proof.
  revert ps r fw reads.
  induction tr as [|[now l] tr IH]; intros ps r fw reads Hwf Hrun Hw Hsub;
    cbn [relay_run] in Hrun.
  - injection Hrun as <- <-. exists fw. rewrite app_nil_r. by split_and!.
  - destruct (relay_step now l (ps, r)) as [[ps1 r1]|] eqn:Hstep; [|done].
    destruct (relay_step_wf _ _ _ _ _ _ Hwf Hstep) as (Hwf1 & _ & _).
    rewrite chunks_read_cons, app_assoc.
    destruct (relay_step_flow s _ _ _ _ _ _ Hwf Hstep)
      as [(Hto & Hw1 & Hfl)|[(Hto & Hnone & Hw1 & x & Hfl)|(Hto & Hnone & x & Hw1 & Hfl)]].
    + destruct (IH ps1 r1 fw (reads ++ chunk_of s l) Hwf1 Hrun) as (fw' & Hw' & Hsub' & Heq').
      { by rewrite Hw1. }
      { rewrite Hfl, app_assoc. by apply sublist_app. }
      exists fw'. split_and!; [done | done |].
      intros Hnt ->. apply Heq'.
      * simpl in Hnt. by apply andb_true_iff in Hnt as [_ ?].
      * by rewrite Hfl, app_assoc.
    + destruct (IH ps1 r1 fw (reads ++ chunk_of s l) Hwf1 Hrun) as (fw' & Hw' & Hsub' & Heq').
      { by rewrite Hw1. }
      { rewrite Hnone, app_nil_r. etrans; [|exact Hsub].
        rewrite Hfl, app_assoc. by apply sublist_inserts_r. }
      exists fw'. split_and!; [done | done |].
      intros Hnt. simpl in Hnt. by rewrite Hto in Hnt.
    + destruct (IH ps1 r1 (fw ++ [x]) (reads ++ chunk_of s l) Hwf1 Hrun)
        as (fw' & Hw' & Hsub' & Heq').
      { by rewrite Hw1, Hw, app_assoc. }
      { rewrite Hnone, app_nil_r, <- app_assoc. simpl. by rewrite <- Hfl. }
      exists fw'. split_and!; [done | done |].
      intros Hnt ->. apply Heq'.
      * simpl in Hnt. by apply andb_true_iff in Hnt as [_ ?].
      * rewrite Hnone, app_nil_r, <- app_assoc. simpl. by rewrite <- Hfl.
Qed.

End RelayInvariant.

(** ** The relay: what the pumps publish and what the dispatch loop forwards *)

Section RelayClaims.
Context {PS : Type} `{Pool PS}.

(** C5. Within one direction of a relay the chunks reach the other side in
    the order they were read and byte for byte as read: the payloads written
    to the far connection since [Pipe] started are a subsequence of the chunks
    the pump of side [s] read, and when no publish of that side was abandoned
    every chunk read is either written already or still on its way, in read
    order. *)
Theorem relay_forwards_in_order (s : side) tr (ps0 ps : PS) src dst r :
  relay_run tr (ps0, Pipe src dst) = Some (ps, r) →
  ∃ fw,
    conn_writes (r_conn (other s) r) = conn_writes (r_conn (other s) (Pipe src dst)) ++ fw
    ∧ fw `sublist_of` chunks_read s tr
    ∧ (never_timed_out s tr = true → chunks_read s tr = fw ++ in_flight s r).
Proof.
  intros Hrun.
  destruct (relay_run_flow s tr ps0 ps (Pipe src dst) r
              (conn_writes (r_conn (other s) (Pipe src dst))) [] [])
    as (fw & Hw & Hsub & Heq).
  - apply Pipe_wf.
  - done.
  - by rewrite app_nil_r.
  - by destruct s.
  - exists fw. split_and!; [done | |].
    + etrans; [|exact Hsub]. by apply sublist_inserts_r.
    + intros Hnt. apply Heq; [done|]. by destruct s.
Qed.

(** C9. What a pump offers on its channel is a new array holding exactly the
    bytes the read returned, between 1 and 1024 of them, at an address that
    did not exist before the read and so is not the pump's buffer; a published
    chunk is never nil, and no later step of the relay changes its bytes,
    whatever the pumps read into their buffers afterwards. *)
Theorem published_chunk_is_private_copy tr tr' (ps0 ps ps' : PS) src dst r r' :
  relay_run tr (ps0, Pipe src dst) = Some (ps, r) →
  relay_run tr' (ps, r) = Some (ps', r') →
  (∀ now l ps1 r1 s res t,
      relay_step now l (ps, r) = Some (ps1, r1) →
      p_pc (r_pump s r1) = PSend res t → p_pc (r_pump s r) ≠ PSend res t →
      ∃ data, l = LRead s data None ∧ 1 ≤ length data ≤ 1024
              ∧ res = mkSlice (Some (length (r_heap r))) (length data)
              ∧ s_ptr res ≠ s_ptr (p_buf (r_pump s r1))
              ∧ slice_bytes (r_heap r1) res = data)
  ∧ (∀ c, published c r →
          is_nil c = false ∧ 1 ≤ s_len c ≤ 1024
          ∧ length (slice_bytes (r_heap r) c) = s_len c
          ∧ slice_bytes (r_heap r') c = slice_bytes (r_heap r) c).
Proof.
  intros Hrun Hrun'.
  destruct (relay_run_wf _ _ _ _ _ (Pipe_wf src dst) Hrun) as (Hwf & _ & _).
  destruct (relay_run_wf _ _ _ _ _ Hwf Hrun') as (_ & Hst & _).
  split.
  - intros now l ps1 r1 s res t Hstep Hnew Hold.
    destruct (relay_step_new_publish _ _ _ _ _ _ _ _ _ Hwf Hstep Hnew Hold)
      as (data & -> & -> & Hlen & -> & Hbytes).
    destruct (relay_step_wf _ _ _ _ _ _ Hwf Hstep) as (Hwf1 & _ & _).
    exists data. split_and!; try done; try lia.
    rewrite (wf_buf r1 Hwf1 s). simpl. intros [= Heq].
    destruct (wf_arr r Hwf Dst) as (a & Ha & _). apply lookup_lt_Some in Ha.
    pose proof (buf_loc_lt s). simpl in Ha. lia.
  - intros c [s Hc].
    pose proof (wf_chunks r Hwf s c Hc) as Hok.
    split_and!.
    + by eapply chunk_ok_not_nil.
    + destruct Hok as (l & arr & _ & _ & _ & _ & Hn). lia.
    + destruct Hok as (l & arr & _ & _ & _ & _ & Hn). lia.
    + by eapply chunk_ok_bytes_length.
    + by apply chunk_ok_stable.
Qed.

(** C3. One pass of a read pump, in any state a relay can reach: a publish
    starts only out of a read that returned no error and at least one byte; a
    read error that is not a timeout leads to the send of the nil sentinel,
    and once the dispatch loop has received it the pump leaves its loop; a
    timeout error leaves the loop at once and sends nothing; out of the loop
    the pump closes its channel, after which the backend pump, and only it,
    hands the backend connection to the pool. *)
Theorem pump_iteration_outcomes tr (ps0 ps : PS) src dst r (s : side) (now : Z) :
  relay_run tr (ps0, Pipe src dst) = Some (ps, r) →
  (∀ l ps1 r1 res t,
      relay_step now l (ps, r) = Some (ps1, r1) →
      p_pc (r_pump s r1) = PSend res t → p_pc (r_pump s r) ≠ PSend res t →
      ∃ data, l = LRead s data None ∧ 1 ≤ length data
              ∧ slice_bytes (r_heap r1) res = data)
  ∧ (∀ data e, p_pc (r_pump s r) = PRead → length data ≤ 1024 →
       ∃ r1, relay_step now (LRead s data (Some e)) (ps, r) = Some (ps, r1)
             ∧ r_disp r1 = r_disp r ∧ r_closed s r1 = r_closed s r
             ∧ r_src r1 = r_src r ∧ r_dst r1 = r_dst r
             ∧ p_pc (r_pump s r1) = if is_net_timeout e then PClose else PSendNil)
  ∧ (p_pc (r_pump s r) = PSendNil →
       (∀ l ps1 r1, relay_step now l (ps, r) = Some (ps1, r1) →
                    p_pc (r_pump s r1) ≠ PSendNil → l = LSendNil s)
       ∧ (r_disp r = DSelect →
          ∃ r1, relay_step now (LSendNil s) (ps, r) = Some (ps, r1)
                ∧ r1 = dispatch now s nil_slice (set_pump s (pump_at PClose (r_pump s r)) r)
                ∧ r_disp r1 = DReturn ∧ p_pc (r_pump s r1) = PClose))
  ∧ (p_pc (r_pump s r) = PClose →
       ∃ r1, relay_step now (LClose s) (ps, r) = Some (ps, r1)
             ∧ r_closed s r1 = true
             ∧ p_pc (r_pump s r1) = match s with Src => PExit | Dst => PPut end)
  ∧ (p_pc (r_pump s r) = PPut →
       s = Dst
       ∧ ∃ r1, relay_step now (LPut s) (ps, r) = Some (pool_put (r_dst r) ps, r1)
               ∧ p_pc (r_pump s r1) = PExit)
  ∧ (∀ l ps1 r1, relay_step now l (ps, r) = Some (ps1, r1) →
       ps1 = ps ∨ (l = LPut Dst ∧ ps1 = pool_put (r_dst r) ps)).
Proof.
  intros Hrun.
  destruct (relay_run_wf _ _ _ _ _ (Pipe_wf src dst) Hrun) as (Hwf & _ & _).
  split_and!.
  - intros l ps1 r1 res t Hstep Hnew Hold.
    destruct (relay_step_new_publish _ _ _ _ _ _ _ _ _ Hwf Hstep Hnew Hold)
      as (data & -> & -> & Hlen & -> & Hbytes).
    exists data. split_and!; [done | lia | done].
  - intros data e Hpc Hlen. simpl. rewrite Hpc, (wf_buf r Hwf s). simpl.
    apply Nat.leb_le in Hlen. rewrite Hlen.
    unfold pump_after_read.
    destruct (is_net_timeout e); simpl; eexists; (split; [done|]);
      autorewrite with relay; by destruct s.
  - intros Hpc. split.
    + intros l ps1 r1 Hstep Hne.
      destruct l as [s1 data err|s1|s1|s1|s1|s1|s1|n err]; simpl in Hstep.
      * destruct (p_pc (r_pump s1 r)) eqn:Hpc1; try done.
        rewrite (wf_buf r Hwf s1) in Hstep. simpl in Hstep.
        destruct (length data <=? 1024); [|done].
        destruct (pump_after_read _ _ _ _ _) as [p' h']. injection Hstep as <- <-.
        autorewrite with relay in Hne. destruct (side_eqb s s1) eqn:Hs; [|done].
        apply side_eqb_eq in Hs as ->. congruence.
      * destruct (p_pc (r_pump s1 r)) eqn:Hpc1; try done.
        destruct (is_select (r_disp r)); [|done]. injection Hstep as <- <-.
        autorewrite with relay in Hne. destruct (side_eqb s s1) eqn:Hs; [|done].
        apply side_eqb_eq in Hs as ->. congruence.
      * destruct (p_pc (r_pump s1 r)) eqn:Hpc1; try done.
        destruct (_ <=? _)%Z; [|done]. injection Hstep as <- <-.
        autorewrite with relay in Hne. destruct (side_eqb s s1) eqn:Hs; [|done].
        apply side_eqb_eq in Hs as ->. congruence.
      * destruct (p_pc (r_pump s1 r)) eqn:Hpc1; try done.
        destruct (is_select (r_disp r)); [|done]. injection Hstep as <- <-.
        autorewrite with relay in Hne. destruct (side_eqb s s1) eqn:Hs; [|done].
        by apply side_eqb_eq in Hs as ->.
      * destruct (p_pc (r_pump s1 r)) eqn:Hpc1; try done. injection Hstep as <- <-.
        autorewrite with relay in Hne. destruct (side_eqb s s1) eqn:Hs; [|done].
        apply side_eqb_eq in Hs as ->. congruence.
      * destruct (p_pc (r_pump s1 r)) eqn:Hpc1; try done. injection Hstep as <- <-.
        autorewrite with relay in Hne. destruct (side_eqb s s1) eqn:Hs; [|done].
        apply side_eqb_eq in Hs as ->. congruence.
      * destruct (r_closed s1 r && is_select (r_disp r)); [|done].
        injection Hstep as <- <-. by autorewrite with relay in Hne.
      * destruct (r_disp r) as [|from chunk|]; try done.
        destruct (write_result_ok _ n err); [|done].
        injection Hstep as <- <-. by autorewrite with relay in Hne.
    + intros Hd. simpl. rewrite Hpc, Hd. simpl. eexists. split; [done|].
      split; [done|]. autorewrite with relay.
      split; [by destruct s | done].
  - intros Hpc. simpl. rewrite Hpc. eexists. split; [done|].
    autorewrite with relay. split; [done|]. simpl.
    rewrite (wf_pool r Hwf s). by destruct s.
  - intros Hpc. pose proof (wf_put r Hwf s Hpc) as ->. split; [done|].
    simpl in *. rewrite Hpc. eexists. split; [done|]. done.
  - intros l ps1 r1 Hstep.
    destruct l as [s1 data err|s1|s1|s1|s1|s1|s1|n err]; simpl in Hstep.
    all: try (left; repeat case_match; by simplify_eq).
    destruct (p_pc (r_pump s1 r)) eqn:Hpc1; try done. injection Hstep as <- <-.
    right. pose proof (wf_put r Hwf s1 Hpc1) as ->. done.
Qed.

(** C4. What the dispatch loop does with a message, the [select] being
    ready: a chunk from the client pump is written to the backend connection;
    nil from the client pump sets the deadline of the backend connection to
    ten seconds from now and ends [Pipe]; a chunk from the backend pump is
    written to the client connection; nil from the backend pump ends [Pipe]
    and touches neither connection. *)
Theorem dispatch_per_message (now : Z) (ps : PS) r l (s : side) (v : slice) :
  r_disp r = DSelect → receives r l s v →
  ∃ r1, relay_step now l (ps, r) = Some (ps, r1)
    ∧ if is_nil v then
        r_disp r1 = DReturn ∧ r_src r1 = r_src r
        ∧ r_dst r1 = match s with
                     | Src => conn_set_deadline (now + 10 * Second) (r_dst r)
                     | Dst => r_dst r
                     end
      else
        r_disp r1 = DWrite s v ∧ r_src r1 = r_src r ∧ r_dst r1 = r_dst r
        ∧ ∀ now' n err,
            write_result_ok (length (slice_bytes (r_heap r1) v)) n err = true →
            ∃ r2, relay_step now' (LWrite n err) (ps, r1) = Some (ps, r2)
                  ∧ r_disp r2 = DSelect
                  ∧ r_conn s r2 = r_conn s r1
                  ∧ r_conn (other s) r2
                    = conn_write (slice_bytes (r_heap r1) v) n (r_conn (other s) r1).
Proof.
  intros Hd [(-> & t & Hpc)|[(-> & Hpc & ->)|(-> & Hcl & ->)]]; simpl.
  - rewrite Hpc, Hd. simpl. eexists. split; [done|].
    unfold dispatch. destruct (is_nil v) eqn:Hv.
    + destruct s; simpl; done.
    + simpl. split_and!; [done | by destruct s | by destruct s |].
      intros now' n err Hok. autorewrite with relay in *. rewrite Hok.
      eexists. split; [done|]. unfold dispatch_after_write. simpl.
      split; [done|]. autorewrite with relay. by destruct s.
  - rewrite Hpc, Hd. simpl. eexists. split; [done|]. by destruct s.
  - rewrite Hcl, Hd. simpl. eexists. split; [done|]. by destruct s.
Qed.

(** C10. The dispatch loop discards what its writes return: whatever count
    and error a [Write] gives, the loop goes back to its [select], and two
    different results leave the relay the same up to the bytes the transport
    took; nothing of the result is kept.  [Pipe] returns only out of the
    [select], on receiving nil from one of the two channels. *)
Theorem write_results_are_ignored (now : Z) (ps : PS) r :
  (∀ from chunk n err,
      r_disp r = DWrite from chunk →
      write_result_ok (length (slice_bytes (r_heap r) chunk)) n err = true →
      ∃ r1, relay_step now (LWrite n err) (ps, r) = Some (ps, r1)
            ∧ r_disp r1 = DSelect
            ∧ conn_writes (r_conn (other from) r1)
              = conn_writes (r_conn (other from) r) ++ [slice_bytes (r_heap r) chunk])
  ∧ (∀ n1 e1 n2 e2 ps1 r1 ps2 r2,
      relay_step now (LWrite n1 e1) (ps, r) = Some (ps1, r1) →
      relay_step now (LWrite n2 e2) (ps, r) = Some (ps2, r2) →
      ps1 = ps2 ∧ relay_forget_sent r1 = relay_forget_sent r2)
  ∧ (∀ l ps1 r1,
      relay_step now l (ps, r) = Some (ps1, r1) →
      r_disp r1 = DReturn → r_disp r ≠ DReturn →
      r_disp r = DSelect ∧ ∃ s v, receives r l s v ∧ is_nil v = true).
Proof.
  split_and!.
  - intros from chunk n err Hd Hok. simpl. rewrite Hd, Hok.
    eexists. split; [done|]. unfold dispatch_after_write. simpl.
    split; [done|]. by autorewrite with relay.
  - intros n1 e1 n2 e2 ps1 r1 ps2 r2 H1 H2. simpl in H1, H2.
    destruct (r_disp r) as [|from chunk|]; try done.
    destruct (write_result_ok _ n1 e1); [|done].
    destruct (write_result_ok _ n2 e2); [|done].
    injection H1 as <- <-. injection H2 as <- <-. split; [done|].
    unfold dispatch_after_write, relay_forget_sent. by destruct from.
  - intros l ps1 r1 Hstep Hret Hnot.
    destruct l as [s1 data err|s1|s1|s1|s1|s1|s1|n err]; simpl in Hstep.
    + destruct (p_pc (r_pump s1 r)); try done.
      destruct (_ <=? _); [|done].
      destruct (pump_after_read _ _ _ _ _) as [p' h']. injection Hstep as <- <-.
      by autorewrite with relay in Hret.
    + destruct (p_pc (r_pump s1 r)) as [|res since| | | |] eqn:Hpc; try done.
      destruct (r_disp r) eqn:Hd; try done. injection Hstep as <- <-.
      split; [done|]. exists s1, res. split; [left; eauto|].
      unfold dispatch in Hret. by destruct (is_nil res).
    + destruct (p_pc (r_pump s1 r)); try done.
      destruct (_ <=? _)%Z; [|done]. injection Hstep as <- <-.
      by autorewrite with relay in Hret.
    + destruct (p_pc (r_pump s1 r)) eqn:Hpc; try done.
      destruct (r_disp r) eqn:Hd; try done. injection Hstep as <- <-.
      split; [done|]. exists s1, nil_slice. split; [right; left; eauto | done].
    + destruct (p_pc (r_pump s1 r)); try done. injection Hstep as <- <-.
      by autorewrite with relay in Hret.
    + destruct (p_pc (r_pump s1 r)); try done. injection Hstep as <- <-.
      by autorewrite with relay in Hret.
    + destruct (r_closed s1 r) eqn:Hcl; [|done].
      destruct (r_disp r) eqn:Hd; try done. injection Hstep as <- <-.
      split; [done|]. exists s1, nil_slice. split; [right; right; eauto | done].
    + destruct (r_disp r) as [|from chunk|]; try done.
      destruct (write_result_ok _ n err); [|done]. by injection Hstep as <- <-.
Qed.

End RelayClaims.

(** ** The process *)

Section ProcessClaims.
Context {PS : Type} `{Pool PS}.
Variable opts : options.

Lemma step_not_exited l (w w' : world) : step opts l w = Some w' → w_exit w = None.
Proof. unfold step. by destruct (w_exit w). Qed.

Lemma step_running_eq l (w : world) : w_exit w = None → step opts l w = step_running opts l w.
Proof. unfold step. by intros ->. Qed.

(** C8. One pass of the acceptor loop: it stops exactly when [Accept] fails
    with a timeout; any other failure changes nothing, so no session is
    started and the loop accepts again; a connection starts exactly one
    session and the loop goes on.  No step of any other goroutine stops the
    acceptor. *)
Theorem acceptor_loop_outcomes (w : world) (res : conn + go_error) :
  w_exit w = None → w_acceptor w = ARunning →
  ∃ w', step opts (LAccept res) w = Some w'
    ∧ (w_acceptor w' = AStopped ↔ ∃ e, res = inr e ∧ is_net_timeout e = true)
    ∧ match res with
      | inl c => w_sessions w' = w_sessions w ++ [mkSession SSpawned c None]
                 ∧ w_acceptor w' = ARunning
      | inr e => w_sessions w' = w_sessions w
                 ∧ (is_net_timeout e = false → w' = w)
      end
    ∧ (∀ l w'', step opts l w = Some w'' → w_acceptor w'' = AStopped →
                ∃ e, l = LAccept (inr e) ∧ is_net_timeout e = true).
Proof.
  intros Hex Hacc. rewrite step_running_eq by done. simpl. rewrite Hacc.
  eexists. split; [done|]. split_and!.
  - destruct res as [c|e]; simpl.
    + rewrite Hacc. split; [done | by intros (e & ? & _)].
    + destruct (is_net_timeout e) eqn:He; simpl.
      * split; [eauto | done].
      * rewrite Hacc. split; [done|]. intros (e' & [= <-] & He'). congruence.
  - destruct res as [c|e]; simpl; [done|].
    destruct (is_net_timeout e); by simpl.
  - intros l w'' Hstep Hstop. rewrite step_running_eq in Hstep by done.
    destruct l; simpl in Hstep; repeat case_match; simplify_eq; simpl in *;
      try congruence.
    destruct res0 as [c|e]; simpl in *; [congruence|].
    destruct (is_net_timeout e) eqn:He; [eauto | congruence].
Qed.

Lemma update_session_lookup (w : @world PS) sid s s0 :
  w_sessions w !! sid = Some s0 → w_sessions (update_session sid s w) !! sid = Some s.
Proof. intros Hs. simpl. apply list_lookup_insert_eq. by eapply lookup_lt_Some. Qed.

(** C7. A session whose [pool.Get()] fails: [handleConn] returns at once, so
    the session holds no relay and its only next step is the deferred close of
    the client connection, after which only [Done] is left to it; [Get] is not
    called again, the process has not exited, and every other session is as it
    was. *)
Theorem acquire_failure_ends_session (w : world) sid sess ps' :
  w_exit w = None → w_sessions w !! sid = Some sess → s_pc sess = SRegistered →
  pool_get (w_pools w) = (None, ps') →
  ∃ w1 w2,
    step opts (LSessGet sid) w = Some w1
    ∧ w1 = update_session sid (mkSession SGetFailed (s_conn sess) None) (set_pools ps' w)
    ∧ (∀ l w', step opts l w1 = Some w' → label_session l = Some sid → l = LSessClose sid)
    ∧ step opts (LSessClose sid) w1 = Some w2
    ∧ w_sessions w2
      = <[sid := mkSession SClosed (conn_close (s_conn sess)) None]> (w_sessions w)
    ∧ (∀ l w', step opts l w2 = Some w' → label_session l = Some sid → l = LSessDone sid)
    ∧ w_exit w2 = None ∧ w_connWaitGroup w2 = w_connWaitGroup w
    ∧ w_acceptor w2 = w_acceptor w ∧ w_main w2 = w_main w
    ∧ (∀ j, j ≠ sid → w_sessions w2 !! j = w_sessions w !! j).
Proof.
  intros Hex Hs Hpc Hget.
  set (s1 := mkSession SGetFailed (s_conn sess) None).
  set (w1 := update_session sid s1 (set_pools ps' w)).
  assert (w_sessions w1 !! sid = Some s1) as Hs1 by (by eapply update_session_lookup).
  set (s2 := mkSession SClosed (conn_close (s_conn sess)) None).
  set (w2 := update_session sid s2 w1).
  assert (w_sessions w2 !! sid = Some s2) as Hs2 by (by eapply update_session_lookup).
  exists w1, w2. split_and!.
  - rewrite step_running_eq by done. simpl. rewrite Hs, Hpc.
    unfold handleConn_get. by rewrite Hget.
  - done.
  - intros l w' Hstep Hl. rewrite step_running_eq in Hstep by done.
    destruct l; simpl in Hl; try done; injection Hl as ->;
      cbn [step_running] in Hstep; rewrite Hs1 in Hstep; by simpl in Hstep.
  - rewrite step_running_eq by done. cbn [step_running]. by rewrite Hs1.
  - simpl. by rewrite list_insert_insert_eq.
  - intros l w' Hstep Hl. rewrite step_running_eq in Hstep by done.
    destruct l; simpl in Hl; try done; injection Hl as ->;
      cbn [step_running] in Hstep; rewrite Hs2 in Hstep; by simpl in Hstep.
  - done.
  - done.
  - done.
  - done.
  - intros j Hj. simpl. by rewrite !list_lookup_insert_ne.
Qed.

(** *** Pending publishes stay within their window *)

Lemma ten_seconds_pos : (0 ≤ ten_seconds)%Z.
Proof. by vm_compute. Qed.

Lemma pump_within_at pc p now :
  (∀ res since, pc = PSend res since → since = now) → pump_within now (pump_at pc p).
Proof.
  intros Hpc. unfold pump_within. simpl. destruct pc as [|res since| | | |]; try done.
  rewrite (Hpc res since eq_refl). pose proof ten_seconds_pos. lia.
Qed.

Lemma pump_after_read_within now data err p h p' h' :
  pump_after_read now data err p h = (p', h') → pump_within now p'.
Proof.
  unfold pump_after_read. destruct err as [e|].
  - destruct (negb (is_net_timeout e)); intros [= <- _]; by apply pump_within_at.
  - destruct (0 <? length data); simpl; intros [= <- _]; apply pump_within_at;
      [by intros ? ? [= _ ->] | done].
Qed.

Lemma relay_step_within now l (ps ps' : PS) r r' :
  relay_step now l (ps, r) = Some (ps', r') →
  (∀ s, pump_within now (r_pump s r)) → ∀ s, pump_within now (r_pump s r').
Proof.
  intros Hstep Hin s.
  destruct l as [s1 data err|s1|s1|s1|s1|s1|s1|n err]; simpl in Hstep.
  - destruct (p_pc (r_pump s1 r)); try done.
    destruct (_ <=? _); [|done].
    destruct (pump_after_read _ _ _ _ _) as [p' h'] eqn:Hpar. injection Hstep as <- <-.
    autorewrite with relay. destruct (side_eqb s s1); [|done].
    by eapply pump_after_read_within.
  - destruct (p_pc (r_pump s1 r)); try done.
    destruct (is_select _); [|done]. injection Hstep as <- <-.
    autorewrite with relay. destruct (side_eqb s s1); [by apply pump_within_at | done].
  - destruct (p_pc (r_pump s1 r)); try done.
    destruct (_ <=? _)%Z; [|done]. injection Hstep as <- <-.
    autorewrite with relay. destruct (side_eqb s s1); [by apply pump_within_at | done].
  - destruct (p_pc (r_pump s1 r)); try done.
    destruct (is_select _); [|done]. injection Hstep as <- <-.
    autorewrite with relay. destruct (side_eqb s s1); [by apply pump_within_at | done].
  - destruct (p_pc (r_pump s1 r)); try done. injection Hstep as <- <-.
    autorewrite with relay. destruct (side_eqb s s1); [|done].
    apply pump_within_at. by destruct (p_pool _).
  - destruct (p_pc (r_pump s1 r)); try done. injection Hstep as <- <-.
    autorewrite with relay. destruct (side_eqb s s1); [by apply pump_within_at | done].
  - destruct (_ && _); [|done]. injection Hstep as <- <-. by autorewrite with relay.
  - destruct (r_disp r); try done. destruct (write_result_ok _ _ _); [|done].
    injection Hstep as <- <-. by autorewrite with relay.
Qed.

Lemma timer_allows_within now d since :
  (0 ≤ d)%Z → timer_allows now d (since + ten_seconds) = true →
  (since ≤ now ≤ since + ten_seconds)%Z →
  (since ≤ now + d ≤ since + ten_seconds)%Z.
Proof.
  intros Hd Hal Hin. unfold timer_allows in Hal.
  apply orb_true_iff in Hal as [Hz|Hle]; [apply Z.eqb_eq in Hz | apply Z.leb_le in Hle]; lia.
Qed.

Lemma tick_within now d ss :
  (0 ≤ d)%Z → Forall (session_within now) ss →
  forallb (session_allows now d) ss = true → Forall (session_within (now + d)) ss.
Proof.
  intros Hd Hin. induction Hin as [|s ss Hs _ IH]; simpl; [done|].
  intros [Hal Hrest]%andb_true_iff. constructor; [|by apply IH].
  intros r Hr sd. specialize (Hs r Hr sd).
  unfold session_allows in Hal. rewrite Hr in Hal.
  apply andb_true_iff in Hal as [Ha Hb].
  assert (pump_allows now d (r_pump sd r) = true) as Hsd by (by destruct sd).
  unfold pump_within, pump_allows in *.
  destruct (p_pc (r_pump sd r)); try done. by apply timer_allows_within.
Qed.

Lemma step_within l (w w' : world) :
  Forall (session_within (w_now w)) (w_sessions w) → step opts l w = Some w' →
  Forall (session_within (w_now w')) (w_sessions w').
Proof.
  intros Hin Hstep. pose proof (step_not_exited _ _ _ Hstep) as Hex.
  rewrite step_running_eq in Hstep by done.
  destruct l as [d|res|sid|sid|sid rl|sid|sid|sg| | | | |]; cbn [step_running] in Hstep.
  - destruct (can_tick d w) eqn:Hct; [|done]. injection Hstep as <-. simpl.
    unfold can_tick in Hct. apply andb_true_iff in Hct as [[Hd Hss]%andb_true_iff _].
    apply tick_within; [by apply Z.leb_le | done | done].
  - destruct (w_acceptor w); [|done]. injection Hstep as <-.
    destruct res as [c|e]; simpl.
    + apply Forall_app. split; [done|]. constructor; [|done]. by intros r.
    + by destruct (is_net_timeout e).
  - destruct (w_sessions w !! sid) as [s|] eqn:Hs; [|done].
    destruct (s_pc s); try done. injection Hstep as <-. simpl.
    apply Forall_insert; [done|]. by apply (Forall_lookup_1 _ _ _ _ Hin Hs).
  - destruct (w_sessions w !! sid) as [s|] eqn:Hs; [|done].
    destruct (s_pc s); try done.
    destruct (handleConn_get s (w_pools w)) as [s' ps'] eqn:Hget.
    injection Hstep as <-. simpl. apply Forall_insert; [done|].
    unfold handleConn_get in Hget. destruct (pool_get (w_pools w)) as [[c|] ps1].
    + injection Hget as <- <-. intros r [= <-] sd. by destruct sd.
    + injection Hget as <- <-. by intros r.
  - destruct (w_sessions w !! sid) as [s|] eqn:Hs; [|done].
    destruct (s_relay s) as [r|] eqn:Hr; [|done].
    destruct (relay_step (w_now w) rl (w_pools w, r)) as [[ps' r']|] eqn:Hrs; [|done].
    injection Hstep as <-. simpl. apply Forall_insert; [done|].
    intros r0 [= <-]. eapply relay_step_within; [done|].
    by apply (Forall_lookup_1 _ _ _ _ Hin Hs).
  - destruct (w_sessions w !! sid) as [s|] eqn:Hs; [|done].
    destruct (handleConn_returning s); [|done]. injection Hstep as <-. simpl.
    apply Forall_insert; [done|].
    pose proof (Forall_lookup_1 _ _ _ _ Hin Hs) as Hw.
    intros r0 Hr0 sd. cbn [handleConn_close s_relay] in Hr0.
    destruct (s_relay s) as [r|] eqn:Hr; [|done].
    cbn [option_map] in Hr0. injection Hr0 as <-.
    destruct sd; [apply (Hw r Hr Src) | apply (Hw r Hr Dst)].
  - destruct (w_sessions w !! sid) as [s|] eqn:Hs; [|done].
    destruct (s_pc s); try done. injection Hstep as <-. simpl.
    apply Forall_insert; [done|]. by apply (Forall_lookup_1 _ _ _ _ Hin Hs).
  - destruct (w_main w); try done. by injection Hstep as <-.
  - destruct (w_waiter w); try done. destruct (_ =? _)%Z; [|done]. by injection Hstep as <-.
  - destruct (w_main w); try done. destruct (w_waiter w); try done. by injection Hstep as <-.
  - destruct (w_main w); try done. destruct (_ <=? _)%Z; [|done]. by injection Hstep as <-.
  - destruct (w_main w); try done. by injection Hstep as <-.
  - destruct (w_main w); try done. by injection Hstep as <-.
Qed.

Lemma run_within tr (w w' : world) :
  Forall (session_within (w_now w)) (w_sessions w) → run opts tr w = Some w' →
  Forall (session_within (w_now w')) (w_sessions w').
Proof.
  revert w. induction tr as [|l tr IH]; intros w Hin Hrun; cbn [run] in Hrun.
  - by injection Hrun as <-.
  - destruct (step opts l w) as [w1|] eqn:Hstep; [|done].
    eapply IH; [|done]. by eapply step_within.
Qed.

Lemma boot_no_sessions listen_ok now0 (w0 : world) :
  boot opts listen_ok now0 = BootOk w0 → w_sessions w0 = [] ∧ w_exit w0 = None.
Proof.
  unfold boot. destruct (pool_new _); [|done]. destruct listen_ok; [|done].
  by intros [= <-].
Qed.

(** C6. A publish attempt that is pending in a running process started at
    most ten seconds ago, and time does not pass the end of that window while
    it is pending.  The timer arm of the publish [select] can be taken exactly
    at the end of the window; taking it changes nothing but the pump's program
    counter, which goes back to [Read]: the chunk is not written, the channel
    stays open, the publish is not tried again.  A pending publish ends in one
    of two ways only, the dispatch loop receiving the chunk or the timer, and
    after both the pump is at its next [Read]. *)
Theorem publish_attempt_is_bounded now0 (w0 w : world) tr sid sess r (s : side) res since :
  boot opts true now0 = BootOk w0 → run opts tr w0 = Some w →
  w_sessions w !! sid = Some sess → s_relay sess = Some r →
  p_pc (r_pump s r) = PSend res since →
  (since ≤ w_now w ≤ since + 10 * Second)%Z
  ∧ (∀ d w', step opts (LTick d) w = Some w' → (w_now w' ≤ since + 10 * Second)%Z)
  ∧ (∀ w', step opts (LSessRelay sid (LTimeout s)) w = Some w' ↔
           w_exit w = None ∧ w_now w = (since + 10 * Second)%Z
           ∧ w' = update_session sid
                    (mkSession (s_pc sess) (s_conn sess)
                       (Some (set_pump s (pump_at PRead (r_pump s r)) r)))
                    (set_pools (w_pools w) w))
  ∧ (∀ rl w' r', step opts (LSessRelay sid rl) w = Some w' →
        w_sessions w' !! sid = Some (mkSession (s_pc sess) (s_conn sess) (Some r')) →
        p_pc (r_pump s r') = PSend res since
        ∨ ((rl = LSend s ∨ rl = LTimeout s) ∧ p_pc (r_pump s r') = PRead)).
Proof.
  intros Hboot Hrun Hs Hr Hpc.
  destruct (boot_no_sessions _ _ _ Hboot) as [Hnil _].
  assert (Forall (session_within (w_now w)) (w_sessions w)) as Hin.
  { eapply run_within; [|done]. by rewrite Hnil. }
  pose proof (Forall_lookup_1 _ _ _ _ Hin Hs r Hr s) as Hw.
  unfold pump_within in Hw. rewrite Hpc, ten_seconds_eq in Hw.
  split; [done|]. split_and!.
  - intros d w' Hstep.
    pose proof (step_within _ _ _ Hin Hstep) as Hin'.
    pose proof (step_not_exited _ _ _ Hstep) as Hex.
    rewrite step_running_eq in Hstep by done. cbn [step_running] in Hstep.
    destruct (can_tick d w); [|done]. injection Hstep as <-.
    pose proof (Forall_lookup_1 _ _ _ _ Hin' Hs r Hr s) as Hw'.
    unfold pump_within in Hw'. rewrite Hpc, ten_seconds_eq in Hw'. simpl in *. lia.
  - intros w'. split.
    + intros Hstep. pose proof (step_not_exited _ _ _ Hstep) as Hex.
      rewrite step_running_eq in Hstep by done. cbn [step_running] in Hstep.
      rewrite Hs, Hr in Hstep. cbn [relay_step] in Hstep. rewrite Hpc in Hstep.
      destruct (since + ten_seconds <=? w_now w)%Z eqn:Hle; [|done].
      apply Z.leb_le in Hle. rewrite ten_seconds_eq in Hle.
      injection Hstep as <-. split_and!; [done | lia | done].
    + intros (Hex & Hnow & ->). rewrite step_running_eq by done.
      cbn [step_running]. rewrite Hs, Hr. cbn [relay_step]. rewrite Hpc.
      rewrite ten_seconds_eq, Hnow, Z.leb_refl. done.
  - intros rl w' r' Hstep Hs'.
    pose proof (step_not_exited _ _ _ Hstep) as Hex.
    rewrite step_running_eq in Hstep by done. cbn [step_running] in Hstep.
    rewrite Hs, Hr in Hstep.
    destruct (relay_step (w_now w) rl (w_pools w, r)) as [[ps1 r1]|] eqn:Hrs; [|done].
    injection Hstep as <-.
    rewrite (update_session_lookup _ _ _ sess) in Hs' by done.
    injection Hs' as <-.
    destruct rl as [s1 data err|s1|s1|s1|s1|s1|s1|n err]; simpl in Hrs.
    + destruct (p_pc (r_pump s1 r)) eqn:Hpc1; try done.
      destruct (_ <=? _); [|done].
      destruct (pump_after_read _ _ _ _ _) as [p' h']. injection Hrs as <- <-.
      left. autorewrite with relay. destruct (side_eqb s s1) eqn:Hss; [|done].
      apply side_eqb_eq in Hss as ->. congruence.
    + destruct (p_pc (r_pump s1 r)) eqn:Hpc1; try done.
      destruct (is_select _); [|done]. injection Hrs as <- <-.
      autorewrite with relay. destruct (side_eqb s s1) eqn:Hss; [|by left].
      apply side_eqb_eq in Hss as ->. right. split; [by left | done].
    + destruct (p_pc (r_pump s1 r)) eqn:Hpc1; try done.
      destruct (_ <=? _)%Z; [|done]. injection Hrs as <- <-.
      autorewrite with relay. destruct (side_eqb s s1) eqn:Hss; [|by left].
      apply side_eqb_eq in Hss as ->. right. split; [by right | done].
    + destruct (p_pc (r_pump s1 r)) eqn:Hpc1; try done.
      destruct (is_select _); [|done]. injection Hrs as <- <-.
      left. autorewrite with relay. destruct (side_eqb s s1) eqn:Hss; [|done].
      apply side_eqb_eq in Hss as ->. congruence.
    + destruct (p_pc (r_pump s1 r)) eqn:Hpc1; try done. injection Hrs as <- <-.
      left. autorewrite with relay. destruct (side_eqb s s1) eqn:Hss; [|done].
      apply side_eqb_eq in Hss as ->. congruence.
    + destruct (p_pc (r_pump s1 r)) eqn:Hpc1; try done. injection Hrs as <- <-.
      left. autorewrite with relay. destruct (side_eqb s s1) eqn:Hss; [|done].
      apply side_eqb_eq in Hss as ->. congruence.
    + destruct (_ && _); [|done]. injection Hrs as <- <-. left.
      by autorewrite with relay.
    + destruct (r_disp r); try done. destruct (write_result_ok _ _ _); [|done].
      injection Hrs as <- <-. left. by autorewrite with relay.
Qed.

End ProcessClaims.

(** ** Shutdown *)

(** X2. The deferred closure of [main] is still pending in every state of the
    process, and the listener is never closed: [main] never returns, it
    leaves through [os.Exit]. *)
Lemma deferred_cleanup_never_runs {PS : Type} `{Pool PS} opts now0 (w0 w : world) tr :
  boot opts true now0 = BootOk w0 → run opts tr w0 = Some w →
  w_defers w = [DeferCloseAndRelease] ∧ w_listener_closed w = false.
Proof.
  intros Hboot Hrun.
  assert (w_defers w0 = [DeferCloseAndRelease] ∧ w_listener_closed w0 = false) as Hinit.
  { unfold boot in Hboot. destruct (pool_new _); [|done]. by injection Hboot as <-. }
  clear Hboot. revert w0 Hinit Hrun.
  induction tr as [|l tr IH]; intros w0 Hinit Hrun; cbn [run] in Hrun.
  - by injection Hrun as <-.
  - destruct (step opts l w0) as [w1|] eqn:Hstep; [|done].
    apply (IH w1); [|done].
    pose proof (step_not_exited _ _ _ _ Hstep) as Hex.
    rewrite step_running_eq in Hstep by done.
    destruct l; cbn [step_running] in Hstep; repeat case_match; simplify_eq; try done.
    destruct res; simpl; [done|]. by destruct (is_net_timeout _).
Qed.

(** *** The wait group counts the registered sessions *)

Lemma counted_sessions_app ss ss' :
  counted_sessions (ss ++ ss') = (counted_sessions ss + counted_sessions ss')%Z.
Proof. induction ss as [|s ss IH]; simpl; [done | rewrite IH; lia]. Qed.

Lemma counted_sessions_nonneg ss : (0 ≤ counted_sessions ss)%Z.
Proof. induction ss as [|s ss IH]; simpl; [done|]. destruct (counted s); lia. Qed.

Lemma counted_sessions_insert ss i s s' :
  ss !! i = Some s →
  counted_sessions (<[i := s']> ss)
  = (counted_sessions ss - (if counted s then 1 else 0) + (if counted s' then 1 else 0))%Z.
Proof.
  revert i. induction ss as [|x ss IH]; intros [|i] Hi; simpl in *; try done.
  - injection Hi as ->. lia.
  - rewrite (IH i Hi). lia.
Qed.

Lemma step_counts_registered {PS : Type} `{Pool PS} opts l (w w' : world) :
  w_connWaitGroup w = counted_sessions (w_sessions w) → step opts l w = Some w' →
  w_connWaitGroup w' = counted_sessions (w_sessions w').
Proof.
  intros Hinv Hstep. pose proof (step_not_exited _ _ _ _ Hstep) as Hex.
  rewrite step_running_eq in Hstep by done.
  destruct l as [d|res|sid|sid|sid rl|sid|sid|sg| | | | |]; cbn [step_running] in Hstep.
  - destruct (can_tick d w); [|done]. by injection Hstep as <-.
  - destruct (w_acceptor w); [|done]. injection Hstep as <-.
    destruct res as [c|e]; simpl.
    + rewrite counted_sessions_app. simpl. unfold counted. simpl. lia.
    + by destruct (is_net_timeout e).
  - destruct (w_sessions w !! sid) as [s|] eqn:Hs; [|done].
    destruct (s_pc s) eqn:Hpc; try done. injection Hstep as <-. simpl.
    rewrite (counted_sessions_insert _ _ s) by done. unfold counted. rewrite Hpc. simpl. lia.
  - destruct (w_sessions w !! sid) as [s|] eqn:Hs; [|done].
    destruct (s_pc s) eqn:Hpc; try done.
    destruct (handleConn_get s (w_pools w)) as [s' ps'] eqn:Hget.
    injection Hstep as <-. simpl.
    rewrite (counted_sessions_insert _ _ s) by done.
    unfold handleConn_get in Hget. destruct (pool_get (w_pools w)) as [[c|] ps1];
      injection Hget as <- <-; unfold counted; rewrite Hpc; simpl; lia.
  - destruct (w_sessions w !! sid) as [s|] eqn:Hs; [|done].
    destruct (s_relay s) as [r|]; [|done].
    destruct (relay_step _ _ _) as [[ps' r']|]; [|done].
    injection Hstep as <-. simpl.
    rewrite (counted_sessions_insert _ _ s) by done. unfold counted. simpl.
    destruct (s_pc s); lia.
  - destruct (w_sessions w !! sid) as [s|] eqn:Hs; [|done].
    destruct (handleConn_returning s) eqn:Hret; [|done]. injection Hstep as <-. simpl.
    rewrite (counted_sessions_insert _ _ s) by done.
    unfold handleConn_returning in Hret. unfold counted. simpl.
    destruct (s_pc s); try done; lia.
  - destruct (w_sessions w !! sid) as [s|] eqn:Hs; [|done].
    destruct (s_pc s) eqn:Hpc; try done. injection Hstep as <-. simpl.
    rewrite (counted_sessions_insert _ _ s) by done. unfold counted. rewrite Hpc. simpl. lia.
  - destruct (w_main w); try done. by injection Hstep as <-.
  - destruct (w_waiter w); try done. destruct (_ =? _)%Z; [|done]. by injection Hstep as <-.
  - destruct (w_main w); try done. destruct (w_waiter w); try done. by injection Hstep as <-.
  - destruct (w_main w); try done. destruct (_ <=? _)%Z; [|done]. by injection Hstep as <-.
  - destruct (w_main w); try done. by injection Hstep as <-.
  - destruct (w_main w); try done. by injection Hstep as <-.
Qed.

(** X1. In every state of the process the counter of [connWaitGroup] is the
    number of sessions that have done [Add(1)] and not yet [Done()]: within a
    session the registration comes before the deregistration, and the counter
    is never negative.  A session whose goroutine has started and not yet
    reached [Add(1)] is not in the count. *)
Lemma wait_group_counts_registered {PS : Type} `{Pool PS} opts now0 (w0 w : world) tr :
  boot opts true now0 = BootOk w0 → run opts tr w0 = Some w →
  w_connWaitGroup w = counted_sessions (w_sessions w) ∧ (0 ≤ w_connWaitGroup w)%Z.
Proof.
  intros Hboot Hrun.
  assert (w_connWaitGroup w0 = counted_sessions (w_sessions w0)) as Hinit.
  { unfold boot in Hboot. destruct (pool_new _); [|done]. by injection Hboot as <-. }
  assert (w_connWaitGroup w = counted_sessions (w_sessions w)) as Hinv.
  { clear Hboot. revert w0 Hinit Hrun.
    induction tr as [|l tr IH]; intros w0 Hinit Hrun; cbn [run] in Hrun.
    - by injection Hrun as <-.
    - destruct (step opts l w0) as [w1|] eqn:Hstep; [|done].
      apply (IH w1); [|done]. by eapply step_counts_registered. }
  split; [done|]. rewrite Hinv. apply counted_sessions_nonneg.
Qed.

(** C1 (the code departs from the claim). The clean shutdown of a process
    started with the default flags: the socket file is removed and the exit
    code is 0, but the deferred [listener.Close(); pools.Release()] is still
    pending when the process is gone, the listener is not closed, and the pool
    is the pool [main] built, with its five connections live.  Had [main]
    returned instead, the same state would have gone on to a closed listener
    and an empty pool. *)
Theorem shutdown_exit_skips_pool_release :
  ∃ w0 w : world,
    boot default_options true 0 = BootOk w0
    ∧ run default_options shutdown_schedule w0 = Some w
    ∧ w_exit w = Some 0%Z ∧ w_sock_file w = false
    ∧ w_defers w = [DeferCloseAndRelease] ∧ w_listener_closed w = false
    ∧ w_pools w = w_pools w0 ∧ pool_size (w_pools w) = 5%Z
    ∧ w_listener_closed (main_return w) = true
    ∧ pool_size (w_pools (main_return w)) = 0%Z.
Proof.
  eexists _, _. split; [vm_compute; reflexivity|]. split; [vm_compute; reflexivity|].
  by vm_compute.
Qed.

(** C2 (the code departs from the claim). The acceptor has started a
    session's goroutine, the signal arrives before that goroutine reaches
    [connWaitGroup.Add(1)], and [Wait] returns on a counter of zero: the
    coordinator sees a full drain while a started session is not registered.
    From there the process can exit with code 0, the session never counted;
    or the session registers and takes a backend connection after the drain
    was seen, and the exit happens all the same. *)
Theorem drain_wait_overtakes_registration :
  ∃ w0 w w1 w2 : world,
    boot default_options true 0 = BootOk w0
    ∧ run default_options racing_schedule w0 = Some w
    ∧ w_waiter w = WSending ∧ w_connWaitGroup w = 0%Z
    ∧ s_pc <$> w_sessions w = [SSpawned]
    ∧ run default_options [LDrained; LRemove; LExit] w = Some w1
    ∧ w_exit w1 = Some 0%Z ∧ s_pc <$> w_sessions w1 = [SSpawned]
    ∧ run default_options [LSessAdd 0; LSessGet 0; LDrained; LRemove; LExit] w = Some w2
    ∧ w_exit w2 = Some 0%Z ∧ w_connWaitGroup w2 = 1%Z ∧ s_pc <$> w_sessions w2 = [SPiping].
Proof.
  eexists _, _, _, _. split; [vm_compute; reflexivity|]. split; [vm_compute; reflexivity|].
  do 3 (split; [vm_compute; reflexivity|]). split; [vm_compute; reflexivity|].
  do 2 (split; [vm_compute; reflexivity|]). split; [vm_compute; reflexivity|].
  by vm_compute.
Qed.

(** ** The statements at sample inputs *)

Lemma relay_forwards_in_order_witness :
  ∃ (ps : spec_pool) r,
    relay_run forwarding_schedule (sample_pool, Pipe sample_client sample_backend)
    = Some (ps, r)
    ∧ ∃ fw,
        conn_writes (r_conn (other Src) r)
        = conn_writes (r_conn (other Src) (Pipe sample_client sample_backend)) ++ fw
        ∧ fw `sublist_of` chunks_read Src forwarding_schedule
        ∧ (never_timed_out Src forwarding_schedule = true →
           chunks_read Src forwarding_schedule = fw ++ in_flight Src r).
Proof.
  eexists _, _. split; [vm_compute; reflexivity|].
  eapply (relay_forwards_in_order Src forwarding_schedule sample_pool).
  vm_compute; reflexivity.
Defined.

Lemma published_chunk_is_private_copy_witness :
  ∃ (ps ps' : spec_pool) r r',
    relay_run offering_schedule (sample_pool, Pipe sample_client sample_backend)
    = Some (ps, r)
    ∧ relay_run overwriting_schedule (ps, r) = Some (ps', r')
    ∧ ∀ c, published c r →
           is_nil c = false ∧ 1 ≤ s_len c ≤ 1024
           ∧ length (slice_bytes (r_heap r) c) = s_len c
           ∧ slice_bytes (r_heap r') c = slice_bytes (r_heap r) c.
Proof.
  eexists _, _, _, _. split; [vm_compute; reflexivity|].
  split; [vm_compute; reflexivity|].
  eapply proj2.
  eapply (published_chunk_is_private_copy offering_schedule overwriting_schedule
            sample_pool _ _ sample_client sample_backend); vm_compute; reflexivity.
Defined.

Lemma pump_iteration_outcomes_witness :
  ∃ (ps : spec_pool) r,
    relay_run backend_eof_schedule (sample_pool, Pipe sample_client sample_backend)
    = Some (ps, r)
    ∧ p_pc (r_pump Dst r) = PSendNil
    ∧ ∀ data e, p_pc (r_pump Src r) = PRead → length data ≤ 1024 →
        ∃ r1, relay_step 1 (LRead Src data (Some e)) (ps, r) = Some (ps, r1)
              ∧ r_disp r1 = r_disp r ∧ r_closed Src r1 = r_closed Src r
              ∧ r_src r1 = r_src r ∧ r_dst r1 = r_dst r
              ∧ p_pc (r_pump Src r1) = if is_net_timeout e then PClose else PSendNil.
Proof.
  eexists _, _. split; [vm_compute; reflexivity|].
  split; [vm_compute; reflexivity|].
  eapply proj1, proj2.
  eapply (pump_iteration_outcomes backend_eof_schedule sample_pool _
            sample_client sample_backend _ Src 1).
  vm_compute; reflexivity.
Defined.

Lemma dispatch_per_message_witness :
  ∃ (ps : spec_pool) r res,
    relay_run offering_schedule (sample_pool, Pipe sample_client sample_backend)
    = Some (ps, r)
    ∧ r_disp r = DSelect ∧ receives r (LSend Src) Src res ∧ is_nil res = false
    ∧ ∃ r1, relay_step 1 (LSend Src) (ps, r) = Some (ps, r1)
            ∧ r_disp r1 = DWrite Src res.
Proof.
  eexists _, _, _. split; [vm_compute; reflexivity|].
  split; [vm_compute; reflexivity|].
  split; [left; split; [reflexivity | eexists; vm_compute; reflexivity]|].
  split; [vm_compute; reflexivity|].
  match goal with
  | |- ∃ r1, relay_step _ _ (?ps, ?r) = _ ∧ r_disp r1 = DWrite Src ?res =>
      destruct (dispatch_per_message 1 ps r (LSend Src) Src res)
        as (r1 & Hstep & Hd & _)
  end.
  - vm_compute; reflexivity.
  - left. split; [reflexivity | eexists; vm_compute; reflexivity].
  - exists r1. split; [exact Hstep | exact Hd].
Defined.

Lemma publish_attempt_is_bounded_witness :
  ∃ (w0 w : @world spec_pool) sess r res,
    boot default_options true 0 = BootOk w0
    ∧ run default_options publishing_schedule w0 = Some w
    ∧ w_sessions w !! 0 = Some sess ∧ s_relay sess = Some r
    ∧ p_pc (r_pump Src r) = PSend res 0
    ∧ (0 ≤ w_now w ≤ 0 + 10 * Second)%Z.
Proof.
  eexists _, _, _, _, _. split; [vm_compute; reflexivity|].
  split; [vm_compute; reflexivity|].
  split; [vm_compute; reflexivity|].
  split; [vm_compute; reflexivity|].
  split; [vm_compute; reflexivity|].
  eapply proj1.
  eapply (publish_attempt_is_bounded default_options 0 _ _ publishing_schedule 0 _ _ Src);
    vm_compute; reflexivity.
Defined.

Lemma acquire_failure_ends_session_witness :
  ∃ (w0 w : @world spec_pool) sess ps',
    boot one_connection_options true 0 = BootOk w0
    ∧ run one_connection_options exhausting_schedule w0 = Some w
    ∧ w_exit w = None ∧ w_sessions w !! 1 = Some sess ∧ s_pc sess = SRegistered
    ∧ pool_get (w_pools w) = (None, ps')
    ∧ ∃ w1 w2,
        step one_connection_options (LSessGet 1) w = Some w1
        ∧ step one_connection_options (LSessClose 1) w1 = Some w2
        ∧ w_sessions w2
          = <[1 := mkSession SClosed (conn_close (s_conn sess)) None]> (w_sessions w)
        ∧ w_exit w2 = None
        ∧ w_sessions w2 !! 0 = w_sessions w !! 0.
Proof.
  eexists _, _, _, _. split; [vm_compute; reflexivity|].
  split; [vm_compute; reflexivity|].
  match goal with
  | |- ?A ∧ ?B ∧ ?C ∧ ?D ∧ _ =>
      assert (HA : A) by (vm_compute; reflexivity);
      assert (HB : B) by (vm_compute; reflexivity);
      assert (HC : C) by (vm_compute; reflexivity);
      assert (HD : D) by (vm_compute; reflexivity)
  end.
  destruct (acquire_failure_ends_session one_connection_options _ _ _ _ HA HB HC HD)
    as (w1 & w2 & Hget & _ & _ & Hclose & Hss & _ & Hex & _ & _ & _ & Hother).
  do 4 (split; [assumption|]).
  exists w1, w2. split; [exact Hget|]. split; [exact Hclose|]. split; [exact Hss|].
  split; [exact Hex|]. apply Hother. discriminate.
Defined.

Lemma acceptor_loop_outcomes_witness :
  ∃ w0 : @world spec_pool,
    boot default_options true 0 = BootOk w0
    ∧ w_exit w0 = None ∧ w_acceptor w0 = ARunning
    ∧ ∃ w', step default_options (LAccept (inr (NetError true))) w0 = Some w'
            ∧ (w_acceptor w' = AStopped ↔
               ∃ e, @inr conn go_error (NetError true) = inr e ∧ is_net_timeout e = true).
Proof.
  eexists. split; [vm_compute; reflexivity|].
  split; [vm_compute; reflexivity|].
  split; [vm_compute; reflexivity|].
  match goal with
  | |- ∃ w', step _ _ ?w = _ ∧ _ =>
      destruct (acceptor_loop_outcomes default_options w (inr (NetError true))
                  eq_refl eq_refl)
        as (w' & Hstep & Hiff & _)
  end.
  exists w'. split; [exact Hstep | exact Hiff].
Defined.

Lemma wait_group_counts_registered_witness :
  ∃ w0 w : @world spec_pool,
    boot one_connection_options true 0 = BootOk w0
    ∧ run one_connection_options exhausting_schedule w0 = Some w
    ∧ w_connWaitGroup w = counted_sessions (w_sessions w) ∧ (0 ≤ w_connWaitGroup w)%Z.
Proof.
  eexists _, _. split; [vm_compute; reflexivity|].
  split; [vm_compute; reflexivity|].
  eapply (wait_group_counts_registered one_connection_options 0 _ _ exhausting_schedule);
    vm_compute; reflexivity.
Defined.

Lemma deferred_cleanup_never_runs_witness :
  ∃ w0 w : @world spec_pool,
    boot default_options true 0 = BootOk w0
    ∧ run default_options shutdown_schedule w0 = Some w
    ∧ w_defers w = [DeferCloseAndRelease] ∧ w_listener_closed w = false.
Proof.
  eexists _, _. split; [vm_compute; reflexivity|].
  split; [vm_compute; reflexivity|].
  eapply (deferred_cleanup_never_runs default_options 0 _ _ shutdown_schedule);
    vm_compute; reflexivity.
Defined.

(** ** More on the relay: connections, channels, the pool *)

Lemma dispatch_conns now s v r :
  r_src (dispatch now s v r) = r_src r
  ∧ (r_dst (dispatch now s v r) = r_dst r
     ∨ (s = Src ∧ is_nil v = true ∧ r_disp (dispatch now s v r) = DReturn
        ∧ r_dst (dispatch now s v r) = conn_set_deadline (now + ten_seconds) (r_dst r))).
Proof.
  unfold dispatch. destruct (is_nil v), s; simpl; split; try done; try (by left).
  right. by split_and!.
Qed.

Lemma r_disp_dispatch now s v r :
  r_disp (dispatch now s v r) = if is_nil v then DReturn else DWrite s v.
Proof. unfold dispatch. by destruct (is_nil v), s. Qed.

Section RelayMore.
Context {PS : Type} `{Pool PS}.

(** What one step may do to the two connections: it never closes one and
    never changes the client's deadline; the backend's deadline changes only
    when [Pipe] returns on nil from the client side; payloads are only
    appended. *)
Lemma relay_step_conns now l (ps ps' : PS) r r' :
  relay_step now l (ps, r) = Some (ps', r') →
  (∀ s, conn_id (r_conn s r') = conn_id (r_conn s r)
        ∧ conn_closed (r_conn s r') = conn_closed (r_conn s r)
        ∧ conn_writes (r_conn s r) `prefix_of` conn_writes (r_conn s r'))
  ∧ conn_deadline (r_src r') = conn_deadline (r_src r)
  ∧ (conn_deadline (r_dst r') = conn_deadline (r_dst r)
     ∨ (r_disp r = DSelect ∧ r_disp r' = DReturn
        ∧ conn_deadline (r_dst r') = Some (now + 10 * Second)%Z)).
Proof.
  intros Hstep.
  assert (∀ r0 : relay, r_src r0 = r_src r → r_dst r0 = r_dst r →
            (∀ s, conn_id (r_conn s r0) = conn_id (r_conn s r)
                  ∧ conn_closed (r_conn s r0) = conn_closed (r_conn s r)
                  ∧ conn_writes (r_conn s r) `prefix_of` conn_writes (r_conn s r0))
            ∧ conn_deadline (r_src r0) = conn_deadline (r_src r)
            ∧ (conn_deadline (r_dst r0) = conn_deadline (r_dst r)
               ∨ (r_disp r = DSelect ∧ r_disp r0 = DReturn
                  ∧ conn_deadline (r_dst r0) = Some (now + 10 * Second)%Z))) as Hsame.
  { intros r0 HS HD. split; [intros []; simpl; by rewrite ?HS, ?HD|].
    split; [by rewrite HS | left; by rewrite HD]. }
  assert (∀ r0 s1 v, r_disp r = DSelect → r_src r0 = r_src r → r_dst r0 = r_dst r →
            (∀ s, conn_id (r_conn s (dispatch now s1 v r0)) = conn_id (r_conn s r)
                  ∧ conn_closed (r_conn s (dispatch now s1 v r0)) = conn_closed (r_conn s r)
                  ∧ conn_writes (r_conn s r)
                    `prefix_of` conn_writes (r_conn s (dispatch now s1 v r0)))
            ∧ conn_deadline (r_src (dispatch now s1 v r0)) = conn_deadline (r_src r)
            ∧ (conn_deadline (r_dst (dispatch now s1 v r0)) = conn_deadline (r_dst r)
               ∨ (r_disp r = DSelect ∧ r_disp (dispatch now s1 v r0) = DReturn
                  ∧ conn_deadline (r_dst (dispatch now s1 v r0))
                    = Some (now + 10 * Second)%Z))) as Hdisp.
  { intros r0 s1 v Hd HS HD.
    destruct (dispatch_conns now s1 v r0) as [Hsrc [Hdst|(-> & Hv & Hret & Hdst)]].
    - split; [intros []; simpl; by rewrite ?Hsrc, ?Hdst, ?HS, ?HD|].
      split; [by rewrite Hsrc, HS | left; by rewrite Hdst, HD].
    - split; [intros []; simpl; rewrite ?Hsrc, ?Hdst; simpl; by rewrite ?HS, ?HD|].
      split; [by rewrite Hsrc, HS|]. right. rewrite Hdst. by split_and!. }
  destruct l as [s1 data err|s1|s1|s1|s1|s1|s1|n err]; simpl in Hstep.
  - destruct (p_pc (r_pump s1 r)); try done. destruct (_ <=? _); [|done].
    destruct (pump_after_read _ _ _ _ _) as [p' h']. injection Hstep as <- <-.
    apply Hsame; by destruct s1.
  - destruct (p_pc (r_pump s1 r)); try done.
    destruct (r_disp r) eqn:Hd; try done. injection Hstep as <- <-.
    apply Hdisp; [done | by destruct s1 | by destruct s1].
  - destruct (p_pc (r_pump s1 r)); try done. destruct (_ <=? _)%Z; [|done].
    injection Hstep as <- <-. apply Hsame; by destruct s1.
  - destruct (p_pc (r_pump s1 r)); try done.
    destruct (r_disp r) eqn:Hd; try done. injection Hstep as <- <-.
    apply Hdisp; [done | by destruct s1 | by destruct s1].
  - destruct (p_pc (r_pump s1 r)); try done. injection Hstep as <- <-.
    apply Hsame; by destruct s1.
  - destruct (p_pc (r_pump s1 r)); try done. injection Hstep as <- <-.
    apply Hsame; by destruct s1.
  - destruct (r_closed s1 r); [|done].
    destruct (r_disp r) eqn:Hd; try done. injection Hstep as <- <-.
    by apply Hdisp.
  - destruct (r_disp r) as [|from chunk|] eqn:Hd; try done.
    destruct (write_result_ok _ _ _); [|done]. injection Hstep as <- <-.
    unfold dispatch_after_write. split.
    + intros s. simpl. autorewrite with relay.
      destruct (side_eqb s (other from)) eqn:Hs; simpl; [|done].
      apply side_eqb_eq in Hs as ->.
      split_and!; [done | done | by apply prefix_app_r].
    + destruct from; simpl; auto.
Qed.

(** Once [Pipe] has returned no step of its pumps touches a connection, and
    the dispatch loop never runs again. *)
Lemma relay_step_returned now l (ps ps' : PS) r r' :
  r_disp r = DReturn → relay_step now l (ps, r) = Some (ps', r') →
  r_disp r' = DReturn ∧ r_src r' = r_src r ∧ r_dst r' = r_dst r
  ∧ (∀ s, p_pc (r_pump s r) = PSendNil →
          p_pc (r_pump s r') = PSendNil ∧ r_closed s r' = r_closed s r).
Proof.
  intros Hd Hstep.
  destruct l as [s1 data err|s1|s1|s1|s1|s1|s1|n err]; simpl in Hstep; rewrite ?Hd in Hstep.
  - destruct (p_pc (r_pump s1 r)) eqn:Hpc; try done. destruct (_ <=? _); [|done].
    destruct (pump_after_read _ _ _ _ _) as [p' h']. injection Hstep as <- <-.
    autorewrite with relay. split_and!; [done | by destruct s1 | by destruct s1 |].
    intros s Hs. autorewrite with relay.
    destruct (side_eqb s s1) eqn:Hss; [|done]. apply side_eqb_eq in Hss as ->. congruence.
  - by destruct (p_pc (r_pump s1 r)).
  - destruct (p_pc (r_pump s1 r)) eqn:Hpc; try done. destruct (_ <=? _)%Z; [|done].
    injection Hstep as <- <-.
    autorewrite with relay. split_and!; [done | by destruct s1 | by destruct s1 |].
    intros s Hs. autorewrite with relay.
    destruct (side_eqb s s1) eqn:Hss; [|done]. apply side_eqb_eq in Hss as ->. congruence.
  - by destruct (p_pc (r_pump s1 r)).
  - destruct (p_pc (r_pump s1 r)) eqn:Hpc; try done. injection Hstep as <- <-.
    autorewrite with relay. split_and!; [done | by destruct s1 | by destruct s1 |].
    intros s Hs. autorewrite with relay.
    destruct (side_eqb s s1) eqn:Hss; [|done]. apply side_eqb_eq in Hss as ->. congruence.
  - destruct (p_pc (r_pump s1 r)) eqn:Hpc; try done. injection Hstep as <- <-.
    autorewrite with relay. split_and!; [done | by destruct s1 | by destruct s1 |].
    intros s Hs. autorewrite with relay.
    destruct (side_eqb s s1) eqn:Hss; [|done]. apply side_eqb_eq in Hss as ->. congruence.
  - by rewrite andb_false_r in Hstep.
  - done.
Qed.

Lemma relay_run_returned tr (ps ps' : PS) r r' :
  r_disp r = DReturn → relay_run tr (ps, r) = Some (ps', r') →
  r_disp r' = DReturn ∧ r_src r' = r_src r ∧ r_dst r' = r_dst r
  ∧ (∀ s, p_pc (r_pump s r) = PSendNil →
          p_pc (r_pump s r') = PSendNil ∧ r_closed s r' = r_closed s r).
Proof.
  revert ps r. induction tr as [|[now l] tr IH]; intros ps r Hd Hrun; cbn [relay_run] in Hrun.
  - by injection Hrun as <- <-.
  - destruct (relay_step now l (ps, r)) as [[ps1 r1]|] eqn:Hstep; [|done].
    destruct (relay_step_returned _ _ _ _ _ _ Hd Hstep) as (Hd1 & Hs1 & Ht1 & Hn1).
    destruct (IH _ _ Hd1 Hrun) as (Hd' & Hs' & Ht' & Hn').
    split_and!; [done | congruence | congruence |].
    intros s Hs. destruct (Hn1 s Hs) as [Hp1 Hc1]. destruct (Hn' s Hp1) as [Hp' Hc'].
    split; [done | congruence].
Qed.

(** The pool is touched by one step only: the [Put] of the backend pump. *)
Lemma relay_step_pool now l (ps ps' : PS) r r' :
  relay_wf r → relay_step now l (ps, r) = Some (ps', r') →
  (ps' = ps ∧ ∀ s, l ≠ LPut s)
  ∨ (l = LPut Dst ∧ p_pc (r_pump Dst r) = PPut ∧ ps' = pool_put (r_dst r) ps
     ∧ p_pc (r_pump Dst r') = PExit).
Proof.
  intros Hwf Hstep.
  destruct l as [s1 data err|s1|s1|s1|s1|s1|s1|n err]; simpl in Hstep.
  all: try (left; split; [repeat case_match; by simplify_eq | done]).
  destruct (p_pc (r_pump s1 r)) eqn:Hpc; try done. injection Hstep as <- <-.
  right. pose proof (wf_put r Hwf s1 Hpc) as ->. by split_and!.
Qed.

(** The channel of a pump is closed exactly when the pump has left its loop
    and executed [close(c)]. *)
Lemma relay_step_closed now l (ps ps' : PS) r r' :
  (∀ s, r_closed s r = pump_closed (r_pump s r)) →
  relay_step now l (ps, r) = Some (ps', r') →
  ∀ s, r_closed s r' = pump_closed (r_pump s r').
Proof.
  intros Hinv Hstep s. specialize (Hinv s). unfold pump_closed in *.
  destruct l as [s1 data err|s1|s1|s1|s1|s1|s1|n err]; simpl in Hstep.
  - destruct (p_pc (r_pump s1 r)) eqn:Hpc; try done. destruct (_ <=? _); [|done].
    destruct (pump_after_read now data err (r_pump s1 r) (r_heap r)) as [p' h'] eqn:Hpar.
    injection Hstep as <- <-. autorewrite with relay.
    destruct (side_eqb s s1) eqn:Hs; [|done]. apply side_eqb_eq in Hs as ->.
    rewrite Hpc in Hinv. rewrite Hinv.
    unfold pump_after_read in Hpar. repeat case_match; by simplify_eq.
  - destruct (p_pc (r_pump s1 r)) eqn:Hpc; try done. destruct (is_select _); [|done].
    injection Hstep as <- <-. autorewrite with relay.
    destruct (side_eqb s s1) eqn:Hs; [|done]. apply side_eqb_eq in Hs as ->.
    by rewrite Hpc in Hinv.
  - destruct (p_pc (r_pump s1 r)) eqn:Hpc; try done. destruct (_ <=? _)%Z; [|done].
    injection Hstep as <- <-. autorewrite with relay.
    destruct (side_eqb s s1) eqn:Hs; [|done]. apply side_eqb_eq in Hs as ->.
    by rewrite Hpc in Hinv.
  - destruct (p_pc (r_pump s1 r)) eqn:Hpc; try done. destruct (is_select _); [|done].
    injection Hstep as <- <-. autorewrite with relay.
    destruct (side_eqb s s1) eqn:Hs; [|done]. apply side_eqb_eq in Hs as ->.
    by rewrite Hpc in Hinv.
  - destruct (p_pc (r_pump s1 r)) eqn:Hpc; try done.
    injection Hstep as <- <-. autorewrite with relay.
    destruct (side_eqb s s1) eqn:Hs; [|done]. simpl. by destruct (p_pool _).
  - destruct (p_pc (r_pump s1 r)) eqn:Hpc; try done.
    injection Hstep as <- <-. autorewrite with relay.
    destruct (side_eqb s s1) eqn:Hs; [|done]. apply side_eqb_eq in Hs as ->.
    by rewrite Hpc in Hinv.
  - destruct (_ && _); [|done]. injection Hstep as <- <-. by autorewrite with relay.
  - destruct (r_disp r); try done. destruct (write_result_ok _ _ _); [|done].
    injection Hstep as <- <-. unfold dispatch_after_write. simpl.
    by autorewrite with relay.
Qed.

Lemma relay_run_closed tr (ps ps' : PS) r r' :
  (∀ s, r_closed s r = pump_closed (r_pump s r)) →
  relay_run tr (ps, r) = Some (ps', r') →
  ∀ s, r_closed s r' = pump_closed (r_pump s r').
Proof.
  revert ps r. induction tr as [|[now l] tr IH]; intros ps r Hinv Hrun; cbn [relay_run] in Hrun.
  - by injection Hrun as <- <-.
  - destruct (relay_step now l (ps, r)) as [[ps1 r1]|] eqn:Hstep; [|done].
    eapply IH; [|done]. by eapply relay_step_closed.
Qed.

Lemma relay_run_conns tr (ps ps' : PS) r r' :
  relay_run tr (ps, r) = Some (ps', r') →
  (∀ s, conn_id (r_conn s r') = conn_id (r_conn s r)
        ∧ conn_closed (r_conn s r') = conn_closed (r_conn s r)
        ∧ conn_writes (r_conn s r) `prefix_of` conn_writes (r_conn s r'))
  ∧ conn_deadline (r_src r') = conn_deadline (r_src r)
  ∧ (conn_deadline (r_dst r') = conn_deadline (r_dst r)
     ∨ (r_disp r' = DReturn
        ∧ ∃ t, t ∈ tr.*1 ∧ conn_deadline (r_dst r') = Some (t + 10 * Second)%Z)).
Proof.
  revert ps r. induction tr as [|[now l] tr IH]; intros ps r Hrun; cbn [relay_run] in Hrun.
  - injection Hrun as <- <-. split_and!; [done | done | by left].
  - destruct (relay_step now l (ps, r)) as [[ps1 r1]|] eqn:Hstep; [|done].
    destruct (relay_step_conns _ _ _ _ _ _ Hstep) as (Hc1 & Hs1 & Hd1).
    destruct (IH _ _ Hrun) as (Hc' & Hs' & Hd').
    split_and!.
    + intros s. destruct (Hc1 s) as (? & ? & ?), (Hc' s) as (? & ? & ?).
      split_and!; [congruence | congruence | by etrans].
    + congruence.
    + destruct Hd1 as [Hsame|(_ & Hret & Hset)].
      * destruct Hd' as [Hsame'|(Hret' & t & Ht & Hset')]; [left; congruence|].
        right. split; [done|]. exists t. split; [|done]. rewrite fmap_cons. by right.
      * destruct (relay_run_returned _ _ _ _ _ Hret Hrun) as (Hret' & _ & Hdst & _).
        right. split; [done|]. exists now. rewrite fmap_cons. split; [by left|].
        by rewrite Hdst.
Qed.

(** X3. A relay never closes a connection and never touches the client's
    deadline: whatever the schedule, both connections keep their identity and
    their open or closed state.  The backend's deadline stays as it came from
    the pool while [Pipe] runs; it differs only after [Pipe] has returned on
    nil from the client side, and then it is ten seconds past an instant of
    the schedule. *)
Theorem relay_leaves_connections_open tr (ps0 ps : PS) src dst r :
  relay_run tr (ps0, Pipe src dst) = Some (ps, r) →
  conn_id (r_src r) = conn_id src ∧ conn_closed (r_src r) = conn_closed src
  ∧ conn_deadline (r_src r) = conn_deadline src
  ∧ conn_id (r_dst r) = conn_id dst ∧ conn_closed (r_dst r) = conn_closed dst
  ∧ (conn_deadline (r_dst r) = conn_deadline dst
     ∨ (r_disp r = DReturn
        ∧ ∃ t, t ∈ tr.*1 ∧ conn_deadline (r_dst r) = Some (t + 10 * Second)%Z)).
Proof.
  intros Hrun. destruct (relay_run_conns _ _ _ _ _ Hrun) as (Hc & Hs & Hd).
  destruct (Hc Src) as (? & ? & _), (Hc Dst) as (? & ? & _). by split_and!.
Qed.

(** X4. Once [Pipe] has returned it stays returned and nothing is written to
    either connection any more, whatever the pumps go on to read: the steps
    left are reads, abandoned publishes, closes and the [Put]; a chunk
    offered after the return is never received. *)
Theorem pipe_returned_is_final tr (ps ps' : PS) r r' :
  r_disp r = DReturn → relay_run tr (ps, r) = Some (ps', r') →
  r_disp r' = DReturn ∧ r_src r' = r_src r ∧ r_dst r' = r_dst r
  ∧ Forall (λ x, match x.2 with
                 | LRead _ _ _ | LTimeout _ | LClose _ | LPut _ => True
                 | _ => False
                 end) tr.
Proof.
  intros Hd Hrun.
  destruct (relay_run_returned _ _ _ _ _ Hd Hrun) as (Hd' & Hs & Ht & _).
  split_and!; [done | done | done |].
  clear Hd' Hs Ht. revert ps r Hd Hrun.
  induction tr as [|[now l] tr IH]; intros ps r Hd Hrun; [done|].
  cbn [relay_run] in Hrun.
  destruct (relay_step now l (ps, r)) as [[ps1 r1]|] eqn:Hstep; [|done].
  destruct (relay_step_returned _ _ _ _ _ _ Hd Hstep) as (Hd1 & _).
  constructor; [|by eapply IH].
  destruct l as [s1 data err|s1|s1|s1|s1|s1|s1|n err]; simpl in *; try done;
    rewrite ?Hd in Hstep.
  - by destruct (p_pc (r_pump s1 r)).
  - by destruct (p_pc (r_pump s1 r)).
  - by rewrite andb_false_r in Hstep.
  - done.
Qed.

(** X5. Channel discipline: the channel of a pump is closed exactly when the
    pump has left its loop; so a pump never sends on a closed channel and
    never closes its channel twice (either would panic), and the dispatch
    loop reads nil off a closed channel only after the pump is out of its
    loop. *)
Theorem channel_never_misused tr (ps0 ps : PS) src dst r :
  relay_run tr (ps0, Pipe src dst) = Some (ps, r) →
  (∀ s, r_closed s r = pump_closed (r_pump s r))
  ∧ (∀ now l s st, relay_step now l (ps, r) = Some st →
       l = LSend s ∨ l = LSendNil s ∨ l = LClose s → r_closed s r = false)
  ∧ (∀ now s st, relay_step now (LRecvClosed s) (ps, r) = Some st →
       p_pc (r_pump s r) = PPut ∨ p_pc (r_pump s r) = PExit).
Proof.
  intros Hrun.
  assert (∀ s, r_closed s r = pump_closed (r_pump s r)) as Hinv.
  { eapply relay_run_closed; [|done]. by intros []. }
  split_and!; [done | |].
  - intros now l s st Hstep Hl. rewrite Hinv. unfold pump_closed.
    destruct Hl as [->|[->| ->]]; simpl in Hstep;
      by destruct (p_pc (r_pump s r)).
  - intros now s st Hstep. simpl in Hstep.
    destruct (r_closed s r) eqn:Hc; [|done].
    rewrite Hinv in Hc. unfold pump_closed in Hc.
    destruct (p_pc (r_pump s r)); try done; auto.
Qed.

Lemma relay_step_backend_exit now l (ps ps' : PS) r r' :
  relay_wf r → relay_step now l (ps, r) = Some (ps', r') → (∀ s, l ≠ LPut s) →
  p_pc (r_pump Dst r') = PExit ↔ p_pc (r_pump Dst r) = PExit.
Proof.
  intros Hwf Hstep Hl.
  destruct l as [s1 data err|s1|s1|s1|s1|s1|s1|n err]; simpl in Hstep.
  - destruct (p_pc (r_pump s1 r)) eqn:Hpc; try done. destruct (_ <=? _); [|done].
    destruct (pump_after_read now data err (r_pump s1 r) (r_heap r)) as [p' h'] eqn:Hpar.
    injection Hstep as <- <-. autorewrite with relay.
    destruct (side_eqb Dst s1) eqn:Hs; [|done]. apply side_eqb_eq in Hs as <-.
    rewrite Hpc. unfold pump_after_read in Hpar.
    split; [|done]. repeat case_match; by simplify_eq.
  - destruct (p_pc (r_pump s1 r)) eqn:Hpc; try done. destruct (is_select _); [|done].
    injection Hstep as <- <-. autorewrite with relay.
    destruct (side_eqb Dst s1) eqn:Hs; [|done]. apply side_eqb_eq in Hs as <-.
    by rewrite Hpc.
  - destruct (p_pc (r_pump s1 r)) eqn:Hpc; try done. destruct (_ <=? _)%Z; [|done].
    injection Hstep as <- <-. autorewrite with relay.
    destruct (side_eqb Dst s1) eqn:Hs; [|done]. apply side_eqb_eq in Hs as <-.
    by rewrite Hpc.
  - destruct (p_pc (r_pump s1 r)) eqn:Hpc; try done. destruct (is_select _); [|done].
    injection Hstep as <- <-. autorewrite with relay.
    destruct (side_eqb Dst s1) eqn:Hs; [|done]. apply side_eqb_eq in Hs as <-.
    by rewrite Hpc.
  - destruct (p_pc (r_pump s1 r)) eqn:Hpc; try done.
    injection Hstep as <- <-. autorewrite with relay.
    destruct (side_eqb Dst s1) eqn:Hs; [|done]. apply side_eqb_eq in Hs as <-.
    rewrite Hpc. unfold pump_after_close. cbn [pump_at p_pc].
    by rewrite (wf_pool r Hwf Dst).
  - by destruct (Hl s1).
  - destruct (_ && _); [|done]. injection Hstep as <- <-. by autorewrite with relay.
  - destruct (r_disp r); try done. destruct (write_result_ok _ _ _); [|done].
    injection Hstep as <- <-. by autorewrite with relay.
Qed.

Lemma count_puts_cons now l tr :
  count_puts ((now, l) :: tr)
  = (match l with LPut _ => 1 | _ => 0 end) + count_puts tr.
Proof. by destruct l. Qed.

Lemma relay_run_puts tr (ps ps' : PS) r r' :
  relay_wf r → relay_run tr (ps, r) = Some (ps', r') →
  (p_pc (r_pump Dst r) = PExit →
     count_puts tr = 0 ∧ ps' = ps ∧ p_pc (r_pump Dst r') = PExit)
  ∧ (p_pc (r_pump Dst r) ≠ PExit →
     (count_puts tr = 0 ∧ ps' = ps ∧ p_pc (r_pump Dst r') ≠ PExit)
     ∨ (count_puts tr = 1 ∧ p_pc (r_pump Dst r') = PExit
        ∧ ∃ c, ps' = pool_put c ps ∧ conn_id c = conn_id (r_dst r)
               ∧ conn_closed c = conn_closed (r_dst r)
               ∧ conn_writes (r_dst r) `prefix_of` conn_writes c)).
Proof.
  revert ps r. induction tr as [|[now l] tr IH]; intros ps r Hwf Hrun; cbn [relay_run] in Hrun.
  - injection Hrun as <- <-. split; [done|]. intros Hne. by left.
  - destruct (relay_step now l (ps, r)) as [[ps1 r1]|] eqn:Hstep; [|done].
    destruct (relay_step_wf _ _ _ _ _ _ Hwf Hstep) as (Hwf1 & _ & _).
    destruct (IH _ _ Hwf1 Hrun) as [IHexit IHrun].
    destruct (relay_step_conns _ _ _ _ _ _ Hstep) as (Hc & _ & _).
    destruct (Hc Dst) as (Hid & Hcl & Hpre). simpl in Hid, Hcl, Hpre.
    rewrite count_puts_cons.
    destruct (relay_step_pool _ _ _ _ _ _ Hwf Hstep)
      as [[-> Hl]|(-> & Hput & -> & Hexit)].
    + pose proof (relay_step_backend_exit _ _ _ _ _ _ Hwf Hstep Hl) as Hiff.
      assert (match l with LPut _ => 1 | _ => 0 end = 0) as ->.
      { destruct l; try done. by destruct (Hl s). }
      split.
      * intros Hex. by apply IHexit, Hiff.
      * intros Hne. destruct IHrun as [?|(Hn & Hex & c & -> & Hcid & Hccl & Hcpre)];
          [by rewrite Hiff | by left |].
        right. split_and!; [done | done |]. exists c.
        split_and!; [done | congruence | congruence | by etrans].
    + split; [intros Hex; congruence|]. intros _.
      destruct (IHexit Hexit) as (-> & -> & Hex').
      right. split_and!; [done | done |]. exists (r_dst r). by split_and!.
Qed.

(** X6. [pool.Put] is called at most once per [Pipe], by the backend pump
    after it has closed its channel; the connection handed over is the
    backend connection the relay was given, never closed by the relay, with
    the payloads written to it so far.  Until then the pool is untouched. *)
Theorem backend_connection_put_at_most_once tr (ps0 ps : PS) src dst r :
  relay_run tr (ps0, Pipe src dst) = Some (ps, r) →
  count_puts tr ≤ 1
  ∧ (count_puts tr = 0 → ps = ps0 ∧ p_pc (r_pump Dst r) ≠ PExit)
  ∧ (count_puts tr = 1 →
       p_pc (r_pump Dst r) = PExit ∧ r_closed Dst r = true
       ∧ ∃ c, ps = pool_put c ps0 ∧ conn_id c = conn_id dst
              ∧ conn_closed c = conn_closed dst
              ∧ conn_writes dst `prefix_of` conn_writes c).
Proof.
  intros Hrun.
  destruct (relay_run_puts _ _ _ _ _ (Pipe_wf src dst) Hrun) as [_ Hne].
  assert (∀ s, r_closed s r = pump_closed (r_pump s r)) as Hinv.
  { eapply relay_run_closed; [|done]. by intros []. }
  destruct Hne as [(Hn & -> & Hex)|(Hn & Hex & c & -> & Hid & Hcl & Hpre)]; [done | |].
  - rewrite Hn. split_and!; [lia | done | done].
  - rewrite Hn. split_and!; [lia | done |]. intros _.
    split_and!; [done | |].
    + rewrite Hinv. unfold pump_closed. by rewrite Hex.
    + exists c. by split_and!.
Qed.

Lemma relay_run_blocked_backend tr (ps ps' : PS) r r' :
  relay_wf r → r_disp r = DReturn → p_pc (r_pump Dst r) = PSendNil →
  relay_run tr (ps, r) = Some (ps', r') → ps' = ps ∧ count_puts tr = 0.
Proof.
  revert ps r. induction tr as [|[now l] tr IH]; intros ps r Hwf Hd Hpc Hrun;
    cbn [relay_run] in Hrun.
  - by injection Hrun as <- <-.
  - destruct (relay_step now l (ps, r)) as [[ps1 r1]|] eqn:Hstep; [|done].
    destruct (relay_step_wf _ _ _ _ _ _ Hwf Hstep) as (Hwf1 & _ & _).
    destruct (relay_step_returned _ _ _ _ _ _ Hd Hstep) as (Hd1 & _ & _ & Hnil).
    destruct (Hnil Dst Hpc) as [Hpc1 _].
    destruct (IH _ _ Hwf1 Hd1 Hpc1 Hrun) as [-> Hn].
    rewrite count_puts_cons, Hn.
    destruct (relay_step_pool _ _ _ _ _ _ Hwf Hstep) as [[-> Hl]|(_ & Hput & _)];
      [|congruence].
    split; [done|]. destruct l; try done. by destruct (Hl s).
Qed.

(** X7. A pump that meets a read error other than a timeout after [Pipe]
    has returned stays in its send of nil for good: nobody receives, so it
    never closes its channel; when it is the backend pump, the backend
    connection is never handed back to the pool. *)
Theorem sentinel_after_return_blocks_forever tr0 tr (ps0 ps ps' : PS) src dst r r' s :
  relay_run tr0 (ps0, Pipe src dst) = Some (ps, r) →
  r_disp r = DReturn → p_pc (r_pump s r) = PSendNil →
  relay_run tr (ps, r) = Some (ps', r') →
  p_pc (r_pump s r') = PSendNil ∧ r_closed s r' = false
  ∧ Forall (λ x, x.2 ≠ LSendNil s ∧ x.2 ≠ LClose s) tr
  ∧ (s = Dst → ps' = ps ∧ count_puts tr = 0).
Proof.
  intros Hrun0 Hd Hpc Hrun.
  destruct (relay_run_wf _ _ _ _ _ (Pipe_wf src dst) Hrun0) as (Hwf & _ & _).
  assert (∀ s, r_closed s r = pump_closed (r_pump s r)) as Hinv.
  { eapply relay_run_closed; [|done]. by intros []. }
  destruct (relay_run_returned _ _ _ _ _ Hd Hrun) as (_ & _ & _ & Hnil).
  destruct (Hnil s Hpc) as [Hpc' Hcl].
  split_and!; [done | | |].
  - rewrite Hcl, Hinv. unfold pump_closed. by rewrite Hpc.
  - clear Hpc' Hcl Hnil Hinv Hwf Hrun0. revert ps r Hd Hpc Hrun.
    induction tr as [|[now l] tr IH]; intros ps r Hd Hpc Hrun; [done|].
    cbn [relay_run] in Hrun.
    destruct (relay_step now l (ps, r)) as [[ps1 r1]|] eqn:Hstep; [|done].
    destruct (relay_step_returned _ _ _ _ _ _ Hd Hstep) as (Hd1 & _ & _ & Hnil).
    destruct (Hnil s Hpc) as [Hpc1 _].
    constructor; [|by eapply IH]. simpl.
    split; intros ->; simpl in Hstep; rewrite Hpc, ?Hd in Hstep; done.
  - intros ->. by eapply relay_run_blocked_backend.
Qed.

End RelayMore.

(** ** More on the process: shutdown and the life of a session *)

Lemma wrap64_small x : (- 2 ^ 63 ≤ x < 2 ^ 63)%Z → wrap64 x = x.
Proof. intros Hx. unfold wrap64. rewrite Z.mod_small; lia. Qed.

Section ProcessMore.
Context {PS : Type} `{Pool PS}.
Variable opts : options.

Lemma shutdown_progress_frame (w w' : @world PS) :
  w_main w' = w_main w → w_waiter w' = w_waiter w →
  w_listener_deadline w' = w_listener_deadline w → w_sock_file w' = w_sock_file w →
  w_exit w' = w_exit w → w_now w' = w_now w →
  shutdown_progress opts w → shutdown_progress opts w'.
Proof. unfold shutdown_progress. by intros -> -> -> -> -> ->. Qed.

Lemma step_shutdown_progress l (w w' : @world PS) :
  shutdown_progress opts w → step opts l w = Some w' → shutdown_progress opts w'.
Proof.
  intros Hinv Hstep. pose proof (step_not_exited _ _ _ _ Hstep) as Hex.
  rewrite step_running_eq in Hstep by done.
  destruct l as [d|res|sid|sid|sid rl|sid|sid|sg| | | | |]; cbn [step_running] in Hstep.
  - destruct (can_tick d w) eqn:Hct; [|done]. injection Hstep as <-.
    unfold can_tick in Hct. apply andb_true_iff in Hct as [[Hd _]%andb_true_iff _].
    apply Z.leb_le in Hd. unfold shutdown_progress in *. simpl.
    destruct (w_main w); [done | | |].
    + destruct Hinv as (t & ? & ? & ? & ? & ? & ? & ?). exists t.
      split_and!; try done; lia.
    + destruct Hinv as (t & ? & ? & Hor & ? & ?). exists t.
      split_and!; try done; [lia|]. destruct Hor; [by left | right; lia].
    + destruct Hinv as (t & ? & ? & Hor & ? & ?). exists t.
      split_and!; try done; [lia|]. destruct Hor; [by left | right; lia].
  - destruct (w_acceptor w); [|done]. injection Hstep as <-.
    eapply shutdown_progress_frame; [.. | exact Hinv];
      destruct res as [c|e]; simpl; try done; by destruct (is_net_timeout e).
  - destruct (w_sessions w !! sid) as [s|]; [|done]. destruct (s_pc s); try done.
    injection Hstep as <-. by eapply shutdown_progress_frame; [.. | exact Hinv].
  - destruct (w_sessions w !! sid) as [s|]; [|done]. destruct (s_pc s); try done.
    destruct (handleConn_get s (w_pools w)) as [s' ps']. injection Hstep as <-.
    by eapply shutdown_progress_frame; [.. | exact Hinv].
  - destruct (w_sessions w !! sid) as [s|]; [|done]. destruct (s_relay s); [|done].
    destruct (relay_step _ _ _) as [[ps' r']|]; [|done]. injection Hstep as <-.
    by eapply shutdown_progress_frame; [.. | exact Hinv].
  - destruct (w_sessions w !! sid) as [s|]; [|done].
    destruct (handleConn_returning s); [|done]. injection Hstep as <-.
    by eapply shutdown_progress_frame; [.. | exact Hinv].
  - destruct (w_sessions w !! sid) as [s|]; [|done]. destruct (s_pc s); try done.
    injection Hstep as <-. by eapply shutdown_progress_frame; [.. | exact Hinv].
  - unfold shutdown_progress in *. destruct (w_main w) eqn:Hm; try done.
    injection Hstep as <-. simpl. destruct Hinv as (? & ? & ? & ?).
    exists (w_now w). by split_and!.
  - unfold shutdown_progress in *.
    destruct (w_waiter w) eqn:Hw; try done. destruct (_ =? _)%Z; [|done].
    injection Hstep as <-. simpl.
    destruct (w_main w).
    + by destruct Hinv as (_ & ? & _).
    + destruct Hinv as (t & ? & ? & ? & ? & ? & ? & ?). exists t. by split_and!.
    + destruct Hinv as (t & ? & ? & [?|?] & ? & ?); [done|]. exists t. split_and!; auto.
    + destruct Hinv as (t & ? & ? & [?|?] & ? & ?); [done|]. exists t. split_and!; auto.
  - unfold shutdown_progress in *. destruct (w_main w) eqn:Hm; try done.
    destruct (w_waiter w) eqn:Hw; try done. injection Hstep as <-. simpl.
    destruct Hinv as (t & ? & ? & ? & ? & ? & ? & ?). exists t. split_and!; auto.
  - unfold shutdown_progress in *. destruct (w_main w) eqn:Hm; try done.
    destruct (_ <=? _)%Z eqn:Hle; [|done]. injection Hstep as <-. simpl.
    apply Z.leb_le in Hle.
    destruct Hinv as (t & ? & -> & ? & ? & ? & ? & ?). exists t. split_and!; auto.
  - unfold shutdown_progress in *. destruct (w_main w) eqn:Hm; try done.
    injection Hstep as <-. simpl.
    destruct Hinv as (t & ? & ? & ? & ? & ?). exists t. split_and!; auto.
  - unfold shutdown_progress in *. destruct (w_main w) eqn:Hm; try done.
    injection Hstep as <-. simpl. rewrite Hm.
    destruct Hinv as (t & ? & ? & ? & ? & ?). exists t. split_and!; auto.
Qed.

Lemma run_shutdown_progress tr (w w' : @world PS) :
  shutdown_progress opts w → run opts tr w = Some w' → shutdown_progress opts w'.
Proof.
  revert w. induction tr as [|l tr IH]; intros w Hinv Hrun; cbn [run] in Hrun.
  - by injection Hrun as <-.
  - destruct (step opts l w) as [w1|] eqn:Hstep; [|done].
    eapply IH; [|done]. by eapply step_shutdown_progress.
Qed.

(** X8. The process leaves only through the shutdown path.  As long as no
    signal has been taken (the listener has no deadline) [main] waits, the
    socket file exists and the process has not exited.  When the process has
    exited, the code is 0, the socket file is removed, a signal was taken at
    some instant [t], and either the drain was seen ([Wait] returned on zero
    and [main] took it) or at least the shutdown timeout has passed since
    [t]. *)
Theorem exit_only_through_shutdown now0 (w0 w : @world PS) tr :
  boot opts true now0 = BootOk w0 → run opts tr w0 = Some w →
  (w_listener_deadline w = None →
     w_main w = MAwaitSignal ∧ w_exit w = None ∧ w_sock_file w = true)
  ∧ (∀ code, w_exit w = Some code →
       code = 0%Z ∧ w_sock_file w = false
       ∧ ∃ t, w_listener_deadline w = Some t ∧ (t ≤ w_now w)%Z
              ∧ (w_waiter w = WDone ∨ (t + shutdown_duration opts ≤ w_now w)%Z)).
Proof.
  intros Hboot Hrun.
  assert (shutdown_progress opts w0) as Hinit.
  { unfold boot in Hboot. destruct (pool_new _); [|done]. by injection Hboot as <-. }
  pose proof (run_shutdown_progress _ _ _ Hinit Hrun) as Hinv.
  unfold shutdown_progress in Hinv. split.
  - intros Hnone. destruct (w_main w).
    + by destruct Hinv as (_ & _ & ? & ?).
    + destruct Hinv as (t & ? & _). congruence.
    + destruct Hinv as (t & ? & _). congruence.
    + destruct Hinv as (t & ? & _). congruence.
  - intros code Hcode. destruct (w_main w).
    + destruct Hinv as (_ & _ & _ & ?). congruence.
    + destruct Hinv as (t & _ & _ & _ & _ & _ & _ & ?). congruence.
    + destruct Hinv as (t & _ & _ & _ & _ & ?). congruence.
    + destruct Hinv as (t & ? & ? & ? & ? & [?|?]); [congruence|].
      split_and!; [congruence | done | by exists t].
Qed.

Lemma accepted_app tr tr' : accepted (tr ++ tr') = accepted tr ++ accepted tr'.
Proof.
  induction tr as [|l tr IH]; [done|]. simpl.
  destruct l as [|[c|e]| | | | | | | | | | |]; simpl; by rewrite ?IH.
Qed.

Lemma tracks_update acc (ss : list session) sid s s' :
  Forall2 session_tracks acc ss → ss !! sid = Some s →
  (∀ c, session_tracks c s → session_tracks c s') →
  Forall2 session_tracks acc (<[sid := s']> ss).
Proof.
  intros Hall Hs Hnew.
  destruct (Forall2_lookup_r _ _ _ _ _ Hall Hs) as (c & Hc & Hcs).
  rewrite <- (list_insert_id acc sid c Hc). apply Forall2_insert; [done|]. by apply Hnew.
Qed.

Lemma step_tracks l (w w' : @world PS) acc :
  Forall2 session_tracks acc (w_sessions w) → step opts l w = Some w' →
  Forall2 session_tracks (acc ++ accepted [l]) (w_sessions w').
Proof.
  intros Hall Hstep. pose proof (step_not_exited _ _ _ _ Hstep) as Hex.
  rewrite step_running_eq in Hstep by done.
  destruct l as [d|res|sid|sid|sid rl|sid|sid|sg| | | | |]; cbn [step_running] in Hstep;
    try (simpl accepted; rewrite app_nil_r).
  - destruct (can_tick d w); [|done]. by injection Hstep as <-.
  - destruct (w_acceptor w); [|done]. injection Hstep as <-.
    destruct res as [c|e]; simpl.
    + apply Forall2_app; [done|]. by constructor.
    + rewrite app_nil_r. by destruct (is_net_timeout e).
  - destruct (w_sessions w !! sid) as [s|] eqn:Hs; [|done].
    destruct (s_pc s) eqn:Hpc; try done. injection Hstep as <-. simpl.
    eapply tracks_update; [done | done |].
    intros c. unfold session_tracks. by rewrite Hpc.
  - destruct (w_sessions w !! sid) as [s|] eqn:Hs; [|done].
    destruct (s_pc s) eqn:Hpc; try done.
    destruct (handleConn_get s (w_pools w)) as [s' ps'] eqn:Hget.
    injection Hstep as <-. simpl.
    eapply tracks_update; [done | done |].
    intros c. unfold session_tracks. rewrite Hpc. intros [Hc _].
    unfold handleConn_get in Hget. destruct (pool_get (w_pools w)) as [[tgt|] ps1];
      injection Hget as <- <-; simpl; [|done].
    split; [done|]. eexists. split; [done|]. simpl. by rewrite Hc.
  - destruct (w_sessions w !! sid) as [s|] eqn:Hs; [|done].
    destruct (s_relay s) as [r|] eqn:Hr; [|done].
    destruct (relay_step (w_now w) rl (w_pools w, r)) as [[ps' r']|] eqn:Hrs; [|done].
    injection Hstep as <-. simpl.
    eapply tracks_update; [done | done |].
    destruct (relay_step_conns _ _ _ _ _ _ Hrs) as (Hc & _ & _).
    destruct (Hc Src) as (Hid & Hcl & _). simpl in Hid, Hcl.
    intros c. unfold session_tracks. simpl. rewrite Hr.
    destruct (s_pc s); try (by intros [_ ?]).
    + intros (? & r0 & [= <-] & ? & ?). split; [done|]. exists r'.
      split_and!; [done | congruence | congruence].
    + intros [? Hall']. split; [done|]. intros r0 [= <-].
      destruct (Hall' r eq_refl) as (Hd & ? & ?).
      destruct (relay_step_returned _ _ _ _ _ _ Hd Hrs) as (? & _).
      split_and!; [done | congruence | congruence].
    + intros [? Hall']. split; [done|]. intros r0 [= <-].
      destruct (Hall' r eq_refl) as (Hd & ? & ?).
      destruct (relay_step_returned _ _ _ _ _ _ Hd Hrs) as (? & _).
      split_and!; [done | congruence | congruence].
  - destruct (w_sessions w !! sid) as [s|] eqn:Hs; [|done].
    destruct (handleConn_returning s) eqn:Hret; [|done]. injection Hstep as <-. simpl.
    eapply tracks_update; [done | done |].
    intros c. unfold session_tracks, handleConn_returning in *. simpl.
    destruct (s_pc s); try done.
    + intros [-> ->]. by split.
    + intros (-> & r & Hr & Hid & _). rewrite Hr in *. simpl.
      split; [done|]. intros r0 [= <-]. simpl.
      split_and!; [by destruct (r_disp r) | done | done].
  - destruct (w_sessions w !! sid) as [s|] eqn:Hs; [|done].
    destruct (s_pc s) eqn:Hpc; try done. injection Hstep as <-. simpl.
    eapply tracks_update; [done | done |].
    intros c. unfold session_tracks. by rewrite Hpc.
  - destruct (w_main w); try done. by injection Hstep as <-.
  - destruct (w_waiter w); try done. destruct (_ =? _)%Z; [|done]. by injection Hstep as <-.
  - destruct (w_main w); try done. destruct (w_waiter w); try done. by injection Hstep as <-.
  - destruct (w_main w); try done. destruct (_ <=? _)%Z; [|done]. by injection Hstep as <-.
  - destruct (w_main w); try done. by injection Hstep as <-.
  - destruct (w_main w); try done. by injection Hstep as <-.
Qed.

Lemma run_tracks tr (w w' : @world PS) acc :
  Forall2 session_tracks acc (w_sessions w) → run opts tr w = Some w' →
  Forall2 session_tracks (acc ++ accepted tr) (w_sessions w').
Proof.
  revert w acc. induction tr as [|l tr IH]; intros w acc Hall Hrun; cbn [run] in Hrun.
  - injection Hrun as <-. by rewrite app_nil_r.
  - destruct (step opts l w) as [w1|] eqn:Hstep; [|done].
    change (l :: tr) with ([l] ++ tr). rewrite accepted_app, app_assoc.
    eapply IH; [|done]. by eapply step_tracks.
Qed.

(** X9. The sessions of the process are the connections [Accept] returned,
    one session each and in that order.  A session has a relay only once its
    [pool.Get] has succeeded; its client connection is closed exactly in the
    states after [handleConn] has returned, so before [Done], and with a
    relay only after [Pipe] has returned; until then nothing closes it. *)
Theorem sessions_follow_accepts now0 (w0 w : @world PS) tr :
  boot opts true now0 = BootOk w0 → run opts tr w0 = Some w →
  Forall2 session_tracks (accepted tr) (w_sessions w).
Proof.
  intros Hboot Hrun.
  destruct (boot_no_sessions _ _ _ _ Hboot) as [Hnil _].
  apply (run_tracks tr w0 w []); [|done]. rewrite Hnil. constructor.
Qed.

(** X10. The shutdown timer in nanoseconds: for a [-timeout] of up to
    9223372036 seconds it is that many seconds; from 9223372037 seconds on
    the int64 product wraps around and the duration is negative.  With a
    duration that is not positive the timer arm of the shutdown [select] can
    be taken as soon as the signal is: [main] does not wait for the drain. *)
Theorem shutdown_timer_range :
  ((0 ≤ optionShutdownTimeout opts ≤ 9223372036 →
      shutdown_duration opts = optionShutdownTimeout opts * Second)
   ∧ (9223372037 ≤ optionShutdownTimeout opts ≤ 18446744073 →
      shutdown_duration opts = optionShutdownTimeout opts * Second - 2 ^ 64
      ∧ shutdown_duration opts < 0)
   ∧ (shutdown_duration opts ≤ 0 →
      ∀ (w : @world PS) sg, w_exit w = None → w_main w = MAwaitSignal →
        ∃ w1 w2, step opts (LSignal sg) w = Some w1
                 ∧ step opts LTimerFired w1 = Some w2 ∧ w_main w2 = MRemove))%Z.
Proof.
  unfold shutdown_duration, duration_mul, Second. split_and!.
  - intros Hr. rewrite (wrap64_small (optionShutdownTimeout opts)) by lia.
    rewrite wrap64_small by lia. lia.
  - intros Hr. rewrite (wrap64_small (optionShutdownTimeout opts)) by lia.
    assert (wrap64 (1000000000 * optionShutdownTimeout opts)
            = 1000000000 * optionShutdownTimeout opts - 2 ^ 64)%Z as ->.
    { unfold wrap64.
      rewrite <- (Z.mod_unique (1000000000 * optionShutdownTimeout opts + 2 ^ 63) (2 ^ 64) 1
                 (1000000000 * optionShutdownTimeout opts + 2 ^ 63 - 2 ^ 64)); lia. }
    lia.
  - intros Hneg w sg Hex Hm. eexists _, _.
    rewrite step_running_eq by done. cbn [step_running]. rewrite Hm.
    split; [done|]. rewrite step_running_eq by done. cbn [step_running]. simpl.
    unfold shutdown_duration, duration_mul, Second.
    destruct (_ <=? _)%Z eqn:Hle; [done|]. apply Z.leb_gt in Hle. lia.
Qed.

End ProcessMore.

(** ** More: the end of a stream, the end of accepting *)

(** X11. A stream that ends cleanly is delivered in full: when [Pipe] has
    returned, the pump of side [s] has left its loop and none of its publishes
    was abandoned, the payloads written to the other side since [Pipe] started
    are exactly the chunks that pump read, in order. *)
Theorem clean_end_delivers_everything {PS : Type} `{Pool PS} (s : side) tr
    (ps0 ps : PS) src dst r :
  relay_run tr (ps0, Pipe src dst) = Some (ps, r) →
  never_timed_out s tr = true → r_disp r = DReturn →
  p_pc (r_pump s r) = PClose ∨ pump_closed (r_pump s r) = true →
  conn_writes (r_conn (other s) r)
  = conn_writes (r_conn (other s) (Pipe src dst)) ++ chunks_read s tr.
Proof.
  intros Hrun Hnt Hd Hpump.
  destruct (relay_run_flow s tr ps0 ps (Pipe src dst) r
              (conn_writes (r_conn (other s) (Pipe src dst))) [] [])
    as (fw & Hw & _ & Heq).
  - apply Pipe_wf.
  - done.
  - by rewrite app_nil_r.
  - by destruct s.
  - assert (in_flight s r = []) as Hin.
    { unfold in_flight, held_by_dispatch, held_by_pump, pump_closed in *. rewrite Hd.
      destruct Hpump as [->|Hc]; [done|]. by destruct (p_pc (r_pump s r)). }
    specialize (Heq Hnt). rewrite Hin, app_nil_r in Heq. simpl in Heq.
    rewrite Hw, Heq; [done | by destruct s].
Qed.

Lemma step_acceptor_stopped {PS : Type} `{Pool PS} opts l (w w' : @world PS) :
  w_acceptor w = AStopped → step opts l w = Some w' →
  w_acceptor w' = AStopped ∧ length (w_sessions w') = length (w_sessions w)
  ∧ ∀ res, l ≠ LAccept res.
Proof.
  intros Hacc Hstep. pose proof (step_not_exited _ _ _ _ Hstep) as Hex.
  rewrite step_running_eq in Hstep by done.
  destruct l; cbn [step_running] in Hstep; repeat case_match; simplify_eq; simpl;
    rewrite ?length_insert; try done; congruence.
Qed.

(** X12. Once the acceptor loop has stopped it stays stopped: [Accept] is
    never called again and no session is started, whatever else the process
    goes on to do. *)
Theorem stopped_acceptor_starts_no_session {PS : Type} `{Pool PS} opts tr (w w' : @world PS) :
  w_acceptor w = AStopped → run opts tr w = Some w' →
  w_acceptor w' = AStopped ∧ length (w_sessions w') = length (w_sessions w)
  ∧ accepted tr = [] ∧ Forall (λ l, ∀ res, l ≠ LAccept res) tr.
Proof.
  revert w. induction tr as [|l tr IH]; intros w Hacc Hrun; cbn [run] in Hrun.
  - injection Hrun as <-. by split_and!.
  - destruct (step opts l w) as [w1|] eqn:Hstep; [|done].
    destruct (step_acceptor_stopped _ _ _ _ Hacc Hstep) as (Hacc1 & Hlen1 & Hl).
    destruct (IH _ Hacc1 Hrun) as (Hacc' & Hlen' & Hnone & Hall).
    split_and!; [done | congruence | | by constructor].
    destruct l as [|[c|e]| | | | | | | | | | |]; simpl; try done. by destruct (Hl (inl c)).
Qed.

(** ** The further statements at sample inputs *)

Lemma relay_leaves_connections_open_witness :
  ∃ (ps : spec_pool) r,
    relay_run backend_timeout_schedule (sample_pool, Pipe sample_client sample_backend)
    = Some (ps, r)
    ∧ conn_closed (r_src r) = conn_closed sample_client
    ∧ conn_closed (r_dst r) = conn_closed sample_backend
    ∧ conn_deadline (r_src r) = conn_deadline sample_client.
Proof.
  eexists _, _.
  match goal with
  | |- ?A ∧ _ => assert (HA : A) by (vm_compute; reflexivity)
  end.
  destruct (relay_leaves_connections_open _ _ _ _ _ _ HA) as (_ & Hsc & Hsd & _ & Hdc & _).
  split; [exact HA|]. split; [exact Hsc|]. split; [exact Hdc | exact Hsd].
Defined.

Lemma pipe_returned_is_final_witness :
  ∃ (ps ps' : spec_pool) r r',
    relay_run client_eof_schedule (sample_pool, Pipe sample_client sample_backend)
    = Some (ps, r)
    ∧ r_disp r = DReturn
    ∧ relay_run after_return_schedule (ps, r) = Some (ps', r')
    ∧ r_disp r' = DReturn ∧ r_src r' = r_src r ∧ r_dst r' = r_dst r.
Proof.
  eexists _, _, _, _. split; [vm_compute; reflexivity|].
  match goal with
  | |- ?A ∧ ?B ∧ _ =>
      assert (HA : A) by (vm_compute; reflexivity);
      assert (HB : B) by (vm_compute; reflexivity)
  end.
  destruct (pipe_returned_is_final _ _ _ _ _ HA HB) as (Hd & Hs & Ht & _).
  split; [exact HA|]. split; [exact HB|].
  split; [exact Hd|]. split; [exact Hs | exact Ht].
Defined.

Lemma channel_never_misused_witness :
  ∃ (ps : spec_pool) r,
    relay_run backend_timeout_schedule (sample_pool, Pipe sample_client sample_backend)
    = Some (ps, r)
    ∧ ∀ s, r_closed s r = pump_closed (r_pump s r).
Proof.
  eexists _, _. split; [vm_compute; reflexivity|].
  eapply proj1.
  eapply (channel_never_misused backend_timeout_schedule sample_pool _
            sample_client sample_backend).
  vm_compute; reflexivity.
Defined.

Lemma backend_connection_put_at_most_once_witness :
  ∃ (ps : spec_pool) r,
    relay_run backend_timeout_schedule (sample_pool, Pipe sample_client sample_backend)
    = Some (ps, r)
    ∧ count_puts backend_timeout_schedule ≤ 1.
Proof.
  eexists _, _. split; [vm_compute; reflexivity|].
  eapply proj1.
  eapply (backend_connection_put_at_most_once backend_timeout_schedule sample_pool _
            sample_client sample_backend).
  vm_compute; reflexivity.
Defined.

Lemma sentinel_after_return_blocks_forever_witness :
  ∃ (ps ps' : spec_pool) r r',
    relay_run late_backend_eof_schedule (sample_pool, Pipe sample_client sample_backend)
    = Some (ps, r)
    ∧ r_disp r = DReturn ∧ p_pc (r_pump Dst r) = PSendNil
    ∧ relay_run [(3%Z, LClose Src)] (ps, r) = Some (ps', r')
    ∧ p_pc (r_pump Dst r') = PSendNil ∧ r_closed Dst r' = false.
Proof.
  eexists _, _, _, _.
  match goal with
  | |- ?A ∧ ?B ∧ ?C ∧ ?D ∧ _ =>
      assert (HA : A) by (vm_compute; reflexivity);
      assert (HB : B) by (vm_compute; reflexivity);
      assert (HC : C) by (vm_compute; reflexivity);
      assert (HD : D) by (vm_compute; reflexivity)
  end.
  destruct (sentinel_after_return_blocks_forever _ _ _ _ _ _ _ _ _ Dst HA HB HC HD)
    as (Hp & Hc & _).
  do 4 (split; [assumption|]). split; [exact Hp | exact Hc].
Defined.

Lemma exit_only_through_shutdown_witness :
  ∃ w0 w : @world spec_pool,
    boot default_options true 0 = BootOk w0
    ∧ run default_options served_schedule w0 = Some w
    ∧ ∀ code, w_exit w = Some code →
        code = 0%Z ∧ w_sock_file w = false
        ∧ ∃ t, w_listener_deadline w = Some t ∧ (t ≤ w_now w)%Z
               ∧ (w_waiter w = WDone ∨ (t + shutdown_duration default_options ≤ w_now w)%Z).
Proof.
  eexists _, _. split; [vm_compute; reflexivity|].
  split; [vm_compute; reflexivity|].
  eapply proj2.
  eapply (exit_only_through_shutdown default_options 0 _ _ served_schedule);
    vm_compute; reflexivity.
Defined.

Lemma sessions_follow_accepts_witness :
  ∃ w0 w : @world spec_pool,
    boot one_connection_options true 0 = BootOk w0
    ∧ run one_connection_options exhausting_schedule w0 = Some w
    ∧ Forall2 session_tracks (accepted exhausting_schedule) (w_sessions w).
Proof.
  eexists _, _. split; [vm_compute; reflexivity|].
  split; [vm_compute; reflexivity|].
  eapply (sessions_follow_accepts one_connection_options 0 _ _ exhausting_schedule);
    vm_compute; reflexivity.
Defined.

Lemma clean_end_delivers_everything_witness :
  ∃ (ps : spec_pool) r,
    relay_run clean_end_schedule (sample_pool, Pipe sample_client sample_backend)
    = Some (ps, r)
    ∧ never_timed_out Src clean_end_schedule = true ∧ r_disp r = DReturn
    ∧ conn_writes (r_conn (other Src) r)
      = conn_writes (r_conn (other Src) (Pipe sample_client sample_backend))
        ++ chunks_read Src clean_end_schedule.
Proof.
  eexists _, _.
  match goal with
  | |- ?A ∧ ?B ∧ ?C ∧ _ =>
      assert (HA : A) by (vm_compute; reflexivity);
      assert (HB : B) by (vm_compute; reflexivity);
      assert (HC : C) by (vm_compute; reflexivity)
  end.
  do 3 (split; [assumption|]).
  apply (clean_end_delivers_everything Src _ _ _ _ _ _ HA HB HC).
  left. vm_compute; reflexivity.
Defined.

Lemma stopped_acceptor_starts_no_session_witness :
  ∃ w0 w w' : @world spec_pool,
    boot default_options true 0 = BootOk w0
    ∧ run default_options stopping_schedule w0 = Some w
    ∧ w_acceptor w = AStopped
    ∧ run default_options [LSessAdd 0; LSessGet 0] w = Some w'
    ∧ w_acceptor w' = AStopped ∧ length (w_sessions w') = length (w_sessions w).
Proof.
  eexists _, _, _. split; [vm_compute; reflexivity|].
  split; [vm_compute; reflexivity|].
  match goal with
  | |- ?A ∧ ?B ∧ _ =>
      assert (HA : A) by (vm_compute; reflexivity);
      assert (HB : B) by (vm_compute; reflexivity)
  end.
  destruct (stopped_acceptor_starts_no_session _ _ _ _ HA HB) as (Hacc & Hlen & _).
  split; [exact HA|]. split; [exact HB|]. split; [exact Hacc | exact Hlen].
Defined.
